(** * Synchronisation core of the lottery clients

    A shallow embedding of [FirebaseCore] (the remote store adapter with its
    local cache), [LotteryEvents] (the event bus) and [LotteryStateManager]
    (the state reconciler), followed by the properties of the specification
    that were checked against them.

    Conventions of the embedding:
    - a JavaScript value that travels through [JSON.stringify], the Realtime
      Database or [localStorage] is a [json] term; numbers are integers
      (timestamps are milliseconds), so floating point is not modelled;
    - [localStorage] maps a key to the value its stored text parses to:
      [JSON.parse (JSON.stringify v)] is [v] on such values, and the store
      itself is taken to be reliable;
    - the Realtime Database is a flat map from path to value that answers a
      read with what was last written at that path; a request may be
      rejected, which is what the [catch] blocks of the source are for.  The
      outcomes of the requests are scripted in the world ([rejections]);
    - an [await]ed call runs to completion before the caller goes on, so an
      operation is one atomic step;
    - an event of the [events] collection is a record with the four fields
      [sendEvent] gives it, its timestamp an integer;
    - handlers and callbacks are code of the pages: they act on an
      application state [App], not on the registries of the client, and
      either return or throw. *)

From Stdlib Require Import ZArith Lia Ascii String.
From stdpp Require Import gmap strings list pretty sorting.

Local Open Scope Z_scope.
Local Open Scope string_scope.
Local Open Scope list_scope.

(** ** JSON values *)

Module Json.

#[local] Set Warnings "-register-all".

Inductive json : Type :=
| JNull
| JBool (b : bool)
| JNum (n : Z)
| JStr (s : string)
| JArr (items : list json)
| JObj (fields : list (string * json)).

(** [if (v)]: the truthiness of a value. *)
Definition truthy (v : json) : bool :=
  match v with
  | JNull => false
  | JBool b => b
  | JNum n => negb (n =? 0)%Z
  | JStr s => negb (String.eqb s "")
  | JArr _ | JObj _ => true
  end.

(** [v !== null] *)
Definition not_null (v : json) : bool :=
  match v with JNull => false | _ => true end.

(** [v === true] *)
Definition is_true (v : json) : bool :=
  match v with JBool true => true | _ => false end.

(** An object is the list of its properties in insertion order. *)
Abbreviation object := (list (string * json)).

(** [o[k]], [None] standing for [undefined]. *)
Fixpoint obj_get (k : string) (o : object) : option json :=
  match o with
  | [] => None
  | (k', v) :: o' => if String.eqb k k' then Some v else obj_get k o'
  end.

(** [o[k] = v]: an existing property keeps its place, a new one goes last. *)
Fixpoint obj_set (k : string) (v : json) (o : object) : object :=
  match o with
  | [] => [(k, v)]
  | (k', v') :: o' =>
      if String.eqb k k' then (k', v) :: o' else (k', v') :: obj_set k v o'
  end.

(** The own enumerable properties that a spread [...v] copies: those of an
    object, the indices of an array, the characters of a string, and none
    for [null], [undefined], a boolean or a number. *)
Definition indexed {A} (f : A → json) (l : list A) : object :=
  imap (λ i x, (pretty i, f x)) l.

Fixpoint chars (s : string) : list string :=
  match s with
  | EmptyString => []
  | String c s' => String c EmptyString :: chars s'
  end.

Definition own_props (v : json) : object :=
  match v with
  | JObj fields => fields
  | JArr items => indexed id items
  | JStr s => indexed JStr (chars s)
  | JNull | JBool _ | JNum _ => []
  end.

(** [{...target, ...src}] where [target] is already a fresh copy. *)
Definition assign (target : object) (src : object) : object :=
  fold_left (λ acc kv, obj_set kv.1 kv.2 acc) src target.

(** [{...a, ...b}]: the copy of [a] has the properties of [a] in their
    order; [b] may be [undefined]. *)
Definition spread2 (a : object) (b : option json) : object :=
  assign a (from_option own_props [] b).

(** The value a property list gives to [k] when it is applied in order: the
    last binding wins, as in an object literal. *)
Definition obj_last (k : string) (o : object) : option json :=
  obj_get k (reverse o).

End Json.
Export Json.

(** ** Events *)

Record Event : Type := mkEvent {
  ev_type : string;
  ev_data : json;
  ev_timestamp : Z;
  ev_id : string
}.

(** The object literal of [sendEvent], in the order it is written. *)
Definition event_json (e : Event) : json :=
  JObj [("type", JStr (ev_type e)); ("data", ev_data e);
        ("timestamp", JNum (ev_timestamp e)); ("id", JStr (ev_id e))].

Module EVENT_TYPES.
Definition START_LOTTERY := "START_LOTTERY".
Definition STOP_LOTTERY := "STOP_LOTTERY".
Definition RESET_LOTTERY := "RESET_LOTTERY".
Definition LOTTERY_RESULT := "LOTTERY_RESULT".
Definition EMPLOYEES_UPDATED := "EMPLOYEES_UPDATED".
Definition PRIZES_UPDATED := "PRIZES_UPDATED".
Definition STATE_CHANGED := "STATE_CHANGED".
Definition SYSTEM_READY := "SYSTEM_READY".
Definition CONNECTION_STATUS := "CONNECTION_STATUS".
End EVENT_TYPES.

(** ** Local cache keys *)

(** [path.replace(/\//g, '_')] *)
Fixpoint replace_slashes (path : string) : string :=
  match path with
  | EmptyString => EmptyString
  | String c rest =>
      String (if Ascii.eqb c "/"%char then "_"%char else c) (replace_slashes rest)
  end.

(** [`lottery_${path.replace(/\//g, '_')}`] *)
Definition localKey (path : string) : string :=
  "lottery_" +:+ replace_slashes path.

(** ** The world of one client *)

Abbreviation Handler := nat (only parsing).

(** What the pages can observe of a run: the [console.log] of a received
    event and the calls of their handlers and callbacks. *)
Inductive Call : Type :=
| Received (e : Event)
| Invoked (h : Handler) (data : json) (e : Event)
| ConnectionCallback (cb : Handler) (isConnected localMode : bool)
| StateCallback (cb : Handler) (newState oldState : json).

Inductive exn : Type :=
| RemoteRejected
| CallbackThrew.

Inductive outcome (A : Type) : Type :=
| Returns (a : A)
| Throws (a : A).
Arguments Returns {A} a.
Arguments Throws {A} a.

Inductive result (S A : Type) : Type :=
| Ok (a : A) (s : S)
| Raise (e : exn) (s : S).
Arguments Ok {S A} a s.
Arguments Raise {S A} e s.

(** ** Computations that change a state and may throw *)

Definition Comp (S A : Type) : Type := S → result S A.

Definition ret {S A} (a : A) : Comp S A := λ s, Ok a s.
Definition bind {S A B} (m : Comp S A) (k : A → Comp S B) : Comp S B :=
  λ s, match m s with
       | Ok a s' => k a s'
       | Raise e s' => Raise e s'
       end.
Definition throw {S A} (e : exn) : Comp S A := λ s, Raise e s.
Definition gets {S A} (f : S → A) : Comp S A := λ s, Ok (f s) s.
Definition modify {S} (f : S → S) : Comp S unit := λ s, Ok tt (f s).

(** [try { m } catch (error) { h error }] *)
Definition try_catch {S A} (m : Comp S A) (h : exn → Comp S A) : Comp S A :=
  λ s, match m s with
       | Ok a s' => Ok a s'
       | Raise e s' => h e s'
       end.

(** [l.forEach(f)] *)
Fixpoint forEach {S A} (l : list A) (f : A → Comp S unit) : Comp S unit :=
  match l with
  | [] => ret tt
  | x :: l' => bind (f x) (λ _, forEach l' f)
  end.

Notation "'let*' x ':=' m 'in' k" := (bind m (λ x, k))
  (at level 10, x name, m at level 100, k at level 200, only parsing).
Notation "m1 ;; m2" := (bind m1 (λ _, m2))
  (at level 100, m2 at level 200, right associativity, only parsing).

Section Client.

(** The application state the handlers and callbacks of the pages act on,
    and what each of them does when called. *)
Context {App : Type}.
Variable run_handler : Handler → json → Event → App → outcome App.
Variable run_connection_callback : Handler → bool → bool → App → outcome App.
Variable run_state_callback : Handler → json → json → App → outcome App.

Record World : Type := mkWorld {
  (* FirebaseCore *)
  isConnected : bool;
  localMode : bool;
  connectionCallbacks : list Handler;
  localStorage : gmap string json;
  cloud : gmap string json;
  rejections : list bool;
  (* LotteryEvents *)
  eventHandlers : gmap string (list Handler);
  lastEventId : option string;
  (* LotteryStateManager *)
  state : object;
  stateCallbacks : list Handler;
  (* the pages *)
  app : App;
  trace : list Call
}.

Definition set_flags (c l : bool) (w : World) : World :=
  mkWorld c l (connectionCallbacks w) (localStorage w) (cloud w) (rejections w)
    (eventHandlers w) (lastEventId w) (state w) (stateCallbacks w) (app w) (trace w).
Definition set_localStorage (ls : gmap string json) (w : World) : World :=
  mkWorld (isConnected w) (localMode w) (connectionCallbacks w) ls (cloud w)
    (rejections w) (eventHandlers w) (lastEventId w) (state w) (stateCallbacks w)
    (app w) (trace w).
Definition set_cloud (c : gmap string json) (rs : list bool) (w : World) : World :=
  mkWorld (isConnected w) (localMode w) (connectionCallbacks w) (localStorage w) c
    rs (eventHandlers w) (lastEventId w) (state w) (stateCallbacks w) (app w)
    (trace w).
Definition set_eventHandlers (hs : gmap string (list Handler)) (w : World) : World :=
  mkWorld (isConnected w) (localMode w) (connectionCallbacks w) (localStorage w)
    (cloud w) (rejections w) hs (lastEventId w) (state w) (stateCallbacks w)
    (app w) (trace w).
Definition set_lastEventId (i : option string) (w : World) : World :=
  mkWorld (isConnected w) (localMode w) (connectionCallbacks w) (localStorage w)
    (cloud w) (rejections w) (eventHandlers w) i (state w) (stateCallbacks w)
    (app w) (trace w).
Definition set_state (st : object) (w : World) : World :=
  mkWorld (isConnected w) (localMode w) (connectionCallbacks w) (localStorage w)
    (cloud w) (rejections w) (eventHandlers w) (lastEventId w) st
    (stateCallbacks w) (app w) (trace w).
Definition set_app (a : App) (c : Call) (w : World) : World :=
  mkWorld (isConnected w) (localMode w) (connectionCallbacks w) (localStorage w)
    (cloud w) (rejections w) (eventHandlers w) (lastEventId w) (state w)
    (stateCallbacks w) a (trace w ++ [c]).
Definition log (c : Call) (w : World) : World := set_app (app w) c w.

Local Abbreviation M := (Comp World).

(** *** FirebaseCore *)

(** The fields the constructors of the three classes set, before any
    [init] runs: no connection, no local mode, no listener, the default
    lottery state. *)
Definition FirebaseCore_new (db : gmap string json) (ls : gmap string json)
    (rs : list bool) (a : App) : World :=
  mkWorld false false [] ls db rs ∅ None
    [("status", JStr "waiting"); ("currentPrize", JNull);
     ("currentWinner", JNull); ("winners", JArr []);
     ("availableEmployees", JArr []); ("completedPrizes", JArr [])]
    [] a [].

Definition saveToLocal (path : string) (data : json) : M unit :=
  try_catch
    (modify (λ w, set_localStorage (<[localKey path := data]> (localStorage w)) w))
    (λ _, ret tt).

Definition loadFromLocal (path : string) : M json :=
  try_catch
    (gets (λ w, default JNull (localStorage w !! localKey path)))
    (λ _, ret JNull).

(** [await this.db.ref(path).set(data)]: the next scripted outcome decides
    whether the request is rejected; with no script left it goes through. *)
Definition db_set (path : string) (data : json) : M unit :=
  λ w, match rejections w with
       | true :: rs => Raise RemoteRejected (set_cloud (cloud w) rs w)
       | false :: rs => Ok tt (set_cloud (<[path := data]> (cloud w)) rs w)
       | [] => Ok tt (set_cloud (<[path := data]> (cloud w)) [] w)
       end.

(** [(await this.db.ref(path).once('value')).val()] *)
Definition db_once (path : string) : M json :=
  λ w, match rejections w with
       | true :: rs => Raise RemoteRejected (set_cloud (cloud w) rs w)
       | false :: rs => Ok (default JNull (cloud w !! path)) (set_cloud (cloud w) rs w)
       | [] => Ok (default JNull (cloud w !! path)) w
       end.

(** [this.isConnected && !this.localMode] *)
Definition online (w : World) : bool := isConnected w && negb (localMode w).

(** Whether the script rejects the next request. *)
Definition next_rejected (w : World) : bool :=
  match rejections w with
  | true :: _ => true
  | _ => false
  end.

Definition triggerConnectionCallbacks (connected : bool) : M unit :=
  let* cbs := gets connectionCallbacks in
  forEach cbs (λ cb,
    try_catch
      (λ w, let c := ConnectionCallback cb connected (localMode w) in
            match run_connection_callback cb connected (localMode w) (app w) with
            | Returns a => Ok tt (set_app a c w)
            | Throws a => Raise CallbackThrew (set_app a c w)
            end)
      (λ _, ret tt)).

Definition onConnectionChange (callback : Handler) : M unit :=
  modify (λ w, mkWorld (isConnected w) (localMode w)
                 (connectionCallbacks w ++ [callback]) (localStorage w) (cloud w)
                 (rejections w) (eventHandlers w) (lastEventId w) (state w)
                 (stateCallbacks w) (app w) (trace w)).

Definition setData (path : string) (data : json) : M bool :=
  try_catch
    (saveToLocal path data ;;
     let* c := gets online in
     (if c then db_set path data else ret tt) ;;
     ret true)
    (λ _, saveToLocal path data ;; ret false).

Definition getData (path : string) : M json :=
  try_catch
    (let* c := gets online in
     let* fromCloud :=
       (if c then
          let* data := db_once path in
          if not_null data then saveToLocal path data ;; ret (Some data)
          else ret None
        else ret None) in
     match fromCloud with
     | Some data => ret data
     | None => loadFromLocal path
     end)
    (λ _, loadFromLocal path).

(** The readings of [Date.now()] and [Math.random()] one broadcast takes:
    the payload's timestamp, the event's timestamp, and the time and the
    random suffix of the event id. *)
Record Stamps : Type := mkStamps {
  payload_now : Z;
  event_now : Z;
  id_now : Z;
  id_random : string
}.

Definition generateEventId (now : Z) (random : string) : string :=
  "event_" +:+ pretty now +:+ "_" +:+ random.

Definition sendEvent (eventType : string) (eventData : json) (t : Stamps) : M bool :=
  let event :=
    mkEvent eventType eventData (event_now t)
      (generateEventId (id_now t) (id_random t)) in
  setData ("events/" +:+ ev_id event) (event_json event).

(** [eventList.sort((a, b) => b.timestamp - a.timestamp)]: the sort is
    stable, so on integer timestamps its result is the one of any stable
    sort by decreasing timestamp. *)
Fixpoint insert_desc (e : Event) (sorted : list Event) : list Event :=
  match sorted with
  | [] => [e]
  | x :: rest =>
      if (ev_timestamp x <=? ev_timestamp e)%Z then e :: x :: rest
      else x :: insert_desc e rest
  end.

Definition sort_desc (eventList : list Event) : list Event :=
  foldr insert_desc [] eventList.

(** The function [onEvent] subscribes to the [events] collection; [events]
    is the value of the collection ([None] for [null]), [now] the reading of
    [Date.now()]. *)
Definition onEvent_value (callback : Event → M unit)
    (events : option (list (string * Event))) (now : Z) : M unit :=
  match events with
  | Some entries =>
      let eventList := entries.*2 in
      match head (sort_desc eventList) with
      | Some latestEvent =>
          if (now - ev_timestamp latestEvent <? 5000)%Z then callback latestEvent
          else ret tt
      | None => ret tt
      end
  | None => ret tt
  end.

Definition syncLocalToCloud : M unit :=
  let* w := gets id in
  if negb (isConnected w) || localMode w then ret tt
  else
    try_catch
      (let* employees := loadFromLocal "employees" in
       (if truthy employees then db_set "employees" employees else ret tt) ;;
       let* prizes := loadFromLocal "prizes" in
       (if truthy prizes then db_set "prizes" prizes else ret tt) ;;
       let* lotteryState := loadFromLocal "lotteryState" in
       (if truthy lotteryState then db_set "lotteryState" lotteryState else ret tt))
      (λ _, ret tt).

(** The listener [setupConnectionMonitoring] puts on [.info/connected];
    [val] is [snapshot.val()].  The source does not await
    [syncLocalToCloud]: its pushes go on while the callbacks run.  The
    callbacks act on the application only, so the order does not show. *)
Definition setupConnectionMonitoring_value (val : json) : M unit :=
  modify (λ w, set_flags (is_true val) (localMode w) w) ;;
  let* connected := gets isConnected in
  (if negb connected then modify (λ w, set_flags (isConnected w) true w)
   else modify (λ w, set_flags (isConnected w) false w) ;; syncLocalToCloud) ;;
  let* connected := gets isConnected in
  triggerConnectionCallbacks connected.

(** [init]; [fails] says that setting up the database throws. *)
Definition init (fails : bool) : M unit :=
  try_catch
    (if fails then throw RemoteRejected else ret tt)
    (λ _, modify (λ w, set_flags (isConnected w) true w) ;;
          triggerConnectionCallbacks false).

(** *** LotteryEvents *)

Definition handleIncomingEvent (event : Event) : M unit :=
  let* last := gets lastEventId in
  if decide (Some (ev_id event) = last) then ret tt
  else
    modify (set_lastEventId (Some (ev_id event))) ;;
    modify (log (Received event)) ;;
    let* handlers := gets (λ w, eventHandlers w !! ev_type event) in
    match handlers with
    | Some handlers =>
        forEach handlers (λ handler,
          try_catch
            (λ w, let c := Invoked handler (ev_data event) event in
                  match run_handler handler (ev_data event) event (app w) with
                  | Returns a => Ok tt (set_app a c w)
                  | Throws a => Raise CallbackThrew (set_app a c w)
                  end)
            (λ _, ret tt))
    | None => ret tt
    end.

(** What [startListening] subscribes: every value of the [events]
    collection goes through [onEvent]'s function to [handleIncomingEvent]. *)
Definition startListening_value (events : option (list (string * Event)))
    (now : Z) : M unit :=
  onEvent_value handleIncomingEvent events now.

Definition broadcastEvent (eventType : string) (eventData : json) (t : Stamps) : M bool :=
  try_catch
    (sendEvent eventType eventData t ;; ret true)
    (λ _, ret false).

Definition on (eventType : string) (handler : Handler) : M unit :=
  modify (λ w,
    let handlers : list Handler := default [] (eventHandlers w !! eventType) in
    set_eventHandlers (<[eventType := (handlers ++ [handler])%list]> (eventHandlers w)) w).

(** [handlers.splice(handlers.indexOf(handler), 1)] *)
Fixpoint remove_first (handler : Handler) (handlers : list Handler) : list Handler :=
  match handlers with
  | [] => []
  | h :: rest => if decide (h = handler) then rest else h :: remove_first handler rest
  end.

Definition off (eventType : string) (handler : Handler) : M unit :=
  modify (λ w,
    match eventHandlers w !! eventType with
    | Some handlers =>
        set_eventHandlers
          (<[eventType := remove_first handler handlers]> (eventHandlers w)) w
    | None => w
    end).

(** [LotteryEvents.updateState] *)
Definition LotteryEvents_updateState (newState : json) (t : Stamps) : M bool :=
  broadcastEvent EVENT_TYPES.STATE_CHANGED
    (JObj [("state", newState); ("timestamp", JNum (payload_now t))]) t.

(** *** LotteryStateManager *)

Definition triggerStateCallbacks (newState oldState : json) : M unit :=
  let* cbs := gets stateCallbacks in
  forEach cbs (λ cb,
    try_catch
      (λ w, let c := StateCallback cb newState oldState in
            match run_state_callback cb newState oldState (app w) with
            | Returns a => Ok tt (set_app a c w)
            | Throws a => Raise CallbackThrew (set_app a c w)
            end)
      (λ _, ret tt)).

(** [newState] is [None] when the caller passes [undefined].  The
    broadcast is not awaited in the source; it only writes the event.
    This is a call that runs to its end with nothing in between; the steps
    a call is made of, which other code can come between, are
    [updateState_call], [updateState_settle] and [updateState_resume]
    below. *)
Definition updateState (newState : option json) (broadcast : bool) (t : Stamps) : M unit :=
  let* oldState := gets state in
  modify (λ w, set_state (spread2 (state w) newState) w) ;;
  let* merged := gets state in
  setData "lotteryState" (JObj merged) ;;
  (if broadcast then
     let* merged := gets state in
     LotteryEvents_updateState (JObj merged) t ;; ret tt
   else ret tt) ;;
  let* merged := gets state in
  triggerStateCallbacks (JObj merged) (JObj oldState).

Definition getState : M object := gets state.

Definition startLottery (prize : json) (t : Stamps) : M unit :=
  updateState
    (Some (JObj [("status", JStr "rolling"); ("currentPrize", prize);
                 ("currentWinner", JNull)])) true t.

Definition resetLottery (t : Stamps) : M unit :=
  updateState
    (Some (JObj [("status", JStr "waiting"); ("currentPrize", JNull);
                 ("currentWinner", JNull)])) true t.

(** *** Runs *)

(** A notification of the [events] subscription: the value of the
    collection and the time at which the listener reads the clock. *)
Record Notification : Type := mkNotification {
  snapshot : option (list (string * Event));
  at_time : Z
}.

Definition deliver (ns : list Notification) : M unit :=
  forEach ns (λ n, startListening_value (snapshot n) (at_time n)).

(** The operations a page or the database client can start on a world. *)
Inductive Op : Type :=
| ConnectedValue (val : json)
| SetData (path : string) (data : json)
| GetData (path : string)
| BroadcastEvent (eventType : string) (eventData : json) (t : Stamps)
| EventsValue (n : Notification)
| On (eventType : string) (handler : Handler)
| Off (eventType : string) (handler : Handler)
| OnConnectionChange (callback : Handler)
| UpdateState (newState : option json) (broadcast : bool) (t : Stamps).

Definition perform (op : Op) : M unit :=
  match op with
  | ConnectedValue val => setupConnectionMonitoring_value val
  | SetData path data => setData path data ;; ret tt
  | GetData path => getData path ;; ret tt
  | BroadcastEvent eventType eventData t =>
      broadcastEvent eventType eventData t ;; ret tt
  | EventsValue n => startListening_value (snapshot n) (at_time n)
  | On eventType handler => on eventType handler
  | Off eventType handler => off eventType handler
  | OnConnectionChange callback => onConnectionChange callback
  | UpdateState newState broadcast t => updateState newState broadcast t
  end.

End Client.

Arguments World : clear implicits.
Abbreviation M App := (Comp (World App)).

(** The value and the world a computation ends with. *)
Definition returned {S A} (r : result S A) : option A :=
  match r with
  | Ok a _ => Some a
  | Raise _ _ => None
  end.

Definition final {S A} (r : result S A) : S :=
  match r with
  | Ok _ s | Raise _ s => s
  end.

(** The events of the [Received] entries of a trace, and the event a call
    was made with. *)
Definition call_event (c : Call) : option Event :=
  match c with
  | Received e | Invoked _ _ e => Some e
  | ConnectionCallback _ _ _ | StateCallback _ _ _ => None
  end.

Definition received (tr : list Call) : list Event :=
  omap (λ c, match c with Received e => Some e | _ => None end) tr.

(** No identifier equals the one before it, [last] being before the first. *)
Fixpoint no_repeat (last : option string) (ids : list string) : Prop :=
  match ids with
  | [] => True
  | i :: rest => Some i ≠ last ∧ no_repeat (Some i) rest
  end.


(** A script in which no request is rejected. *)
Definition all_accepted (rs : list bool) : Prop := Forall (λ r, r = false) rs.


(** The worlds a client can be in: the constructor's, with [init] run, and
    what the operations make of it. *)
Inductive reachable {App} (rh : Handler → json → Event → App → outcome App)
    (rc : Handler → bool → bool → App → outcome App)
    (rs : Handler → json → json → App → outcome App) : World App → Prop :=
| reachable_init db ls script a fails :
    reachable rh rc rs (final (init rc fails (FirebaseCore_new db ls script a)))
| reachable_step w op :
    reachable rh rc rs w → reachable rh rc rs (final (perform rh rc rs op w)).

(** *** Pages that do nothing: the instance the examples run on *)

Definition quiet {X Y : Type} : Handler → X → Y → unit → outcome unit :=
  λ _ _ _ a, Returns a.

(** [m] leaves the observation [f] of the world as it finds it, and [m]
    never throws. *)
Definition keeps {App X A} (f : World App → X) (m : M App A) : Prop :=
  ∀ w, f (final (m w)) = f w.

Definition safe {App A} (m : M App A) : Prop :=
  ∀ w, is_Some (returned (m w)).

Definition flags {App} (w : World App) : bool * bool :=
  (isConnected w, localMode w).

(** One push of [syncLocalToCloud] when the request is accepted. *)
Definition pushed {App} (path : string) (w : World App) : World App :=
  let v := default JNull (localStorage w !! localKey path) in
  if truthy v then set_cloud (<[path := v]> (cloud w)) (tail (rejections w)) w
  else w.

(** The application state a call leaves, whether it returns or throws. *)
Definition outcome_state {A} (o : outcome A) : A :=
  match o with
  | Returns a | Throws a => a
  end.

(** The world after calls that brought the application to [a]. *)
Definition after_calls {App} (a : App) (calls : list Call) (w : World App) : World App :=
  mkWorld (isConnected w) (localMode w) (connectionCallbacks w) (localStorage w)
    (cloud w) (rejections w) (eventHandlers w) (lastEventId w) (state w)
    (stateCallbacks w) a (trace w ++ calls).

(** The calls a dispatch of [event] makes to [handlers], and the
    application state they leave. *)
Definition invocations (handlers : list Handler) (event : Event) : list Call :=
  (λ h, Invoked h (ev_data event) event) <$> handlers.

Definition handled {App} (rh : Handler → json → Event → App → outcome App)
    (handlers : list Handler) (event : Event) (a : App) : App :=
  foldl (λ a h, outcome_state (rh h (ev_data event) event a)) a handlers.

(** [e] is the latest event of the list [l]: an event of [l] of the greatest
    timestamp, and the first of these in [l]. Every event before it in [l]
    is strictly older and no event after it is newer. *)
Definition is_latest (l : list Event) (e : Event) : Prop :=
  ∃ l1 l2, l = l1 ++ e :: l2
           ∧ Forall (λ x, (ev_timestamp x < ev_timestamp e)%Z) l1
           ∧ Forall (λ x, (ev_timestamp x ≤ ev_timestamp e)%Z) l2.

(** [e] is the latest event of the collection the notification [n] carries,
    and it is less than 5000ms old at the time of the notification. *)
Definition fresh_latest (n : Notification) (e : Event) : Prop :=
  ∃ entries, snapshot n = Some entries
             ∧ is_latest entries.*2 e
             ∧ at_time n - ev_timestamp e < 5000.

(** [e] is in the collection the notification [n] carries, less than 5000ms
    old. *)
Definition observed_fresh (n : Notification) (e : Event) : Prop :=
  ∃ entries, snapshot n = Some entries
             ∧ e ∈ entries.*2
             ∧ at_time n - ev_timestamp e < 5000.

(** The number of dispatches of the identifier [i] in a trace. *)
Definition dispatches (i : string) (tr : list Call) : nat :=
  length (filter (λ e, ev_id e = i) (received tr)).

(** A string without ['_']. *)
Fixpoint no_underscore (s : string) : bool :=
  match s with
  | EmptyString => true
  | String c rest => negb (Ascii.eqb c "_"%char) && no_underscore rest
  end.


(** The world after operations run one after the other. *)
Definition after_ops {App} (rh : Handler → json → Event → App → outcome App)
    (rc : Handler → bool → bool → App → outcome App)
    (rs : Handler → json → json → App → outcome App)
    (ops : list Op) (w : World App) : World App :=
  foldl (λ w op, final (perform rh rc rs op w)) w ops.


(** A client of quiet pages with the given connectivity, cache, database
    and script. *)
Definition client (connected : bool) (ls db : gmap string json)
    (script : list bool) : World unit :=
  set_flags connected (negb connected) (FirebaseCore_new db ls script tt).

Definition noon : Stamps := mkStamps 1000 1000 1000 "k3j9x0qza".

(** Pages whose handler 1 throws; each call notes the handler in the
    application state, a list. *)
Definition faulty : Handler → json → Event → list nat → outcome (list nat) :=
  λ h _ _ a, if (h =? 1)%nat then Throws (a ++ [h]) else Returns (a ++ [h]).

Definition stop_event : Event :=
  mkEvent "STOP_LOTTERY" (JObj []) 1000 "event_1000_k3j9x0qza".

Definition start_event : Event :=
  mkEvent "START_LOTTERY" (JObj [("prize", JStr "p1")]) 2000 "event_2000_8fh2m1xcv".

(** A client with three handlers registered for [STOP_LOTTERY]. *)
Definition listening : World (list nat) :=
  mkWorld true false [] ∅ ∅ [] {["STOP_LOTTERY" := [0; 1; 2]%nat]} None [] [] [] [].

(** *** Statements of the specification that the code does not satisfy *)




(** "An event a fresh subscriber observes within the freshness window is
    dispatched exactly once." *)
Definition dispatched_exactly_once {App}
    (rh : Handler → json → Event → App → outcome App) : Prop :=
  ∀ (w : World App) ns n e,
    lastEventId w = None → trace w = [] →
    n ∈ ns → observed_fresh n e →
    dispatches (ev_id e) (trace (final (deliver rh ns w))) = 1%nat.

(** ** Vocabulary of the further properties *)

(** A string without ['/']. *)
Fixpoint no_slash (s : string) : bool :=
  match s with
  | EmptyString => true
  | String c rest => negb (Ascii.eqb c "/"%char) && no_slash rest
  end.

(** The order [sort] puts events in: a later timestamp first. *)
Definition newer_first (a b : Event) : Prop :=
  (ev_timestamp b ≤ ev_timestamp a)%Z.

(** The calls [triggerConnectionCallbacks] makes, and the application state
    they leave. *)
Definition connection_calls (cbs : list Handler) (connected local : bool) : list Call :=
  (λ cb, ConnectionCallback cb connected local) <$> cbs.

Definition notified {App} (rc : Handler → bool → bool → App → outcome App)
    (cbs : list Handler) (connected local : bool) (a : App) : App :=
  foldl (λ a cb, outcome_state (rc cb connected local a)) a cbs.

(** What the cache and the remote store hold for a path, [null] when they
    hold nothing. *)
Definition cached {App} (path : string) (w : World App) : json :=
  default JNull (localStorage w !! localKey path).

Definition remote {App} (path : string) (w : World App) : json :=
  default JNull (cloud w !! path).

(** The handlers registered for a type, in the order of registration, and
    the number of registrations of a handler among them. *)
Definition registered {App} (eventType : string) (w : World App) : list Handler :=
  default [] (eventHandlers w !! eventType).

Definition registrations (h : Handler) (handlers : list Handler) : nat :=
  length (filter (λ x, x = h) handlers).

(** ** The rest of [LotteryStateManager] *)

(** [delete o[k]] *)
Fixpoint obj_delete (k : string) (o : object) : object :=
  match o with
  | [] => []
  | (k', v) :: o' =>
      if String.eqb k k' then obj_delete k o' else (k', v) :: obj_delete k o'
  end.

(** [[...v]] in an array literal: the elements of an array, the characters
    of a string; [undefined] and every other value are not iterable, and the
    spread throws a [TypeError]. *)
Definition iterate (v : option json) : option (list json) :=
  match v with
  | Some (JArr items) => Some items
  | Some (JStr s) => Some (JStr <$> chars s)
  | _ => None
  end.

(** The state the constructor of [LotteryStateManager] sets. *)
Definition default_state : object :=
  [("status", JStr "waiting"); ("currentPrize", JNull);
   ("currentWinner", JNull); ("winners", JArr []);
   ("availableEmployees", JArr []); ("completedPrizes", JArr [])].

Section StateManager.

Context {App : Type}.
Variable run_state_callback : Handler → json → json → App → outcome App.

(** [{ ...winner, prize: this.state.currentPrize }].  A property that holds
    [undefined] is one that neither [JSON.stringify] nor the database keeps:
    when the state has no [currentPrize] the record has no [prize]. *)
Definition winner_record (winner : json) (st : object) : object :=
  let copy := spread2 [] (Some winner) in
  match obj_get "currentPrize" st with
  | Some prize => obj_set "prize" prize copy
  | None => obj_delete "prize" copy
  end.

(** [showWinner]; [None] when the spread of [this.state.winners] throws,
    which is before anything is done. *)
Definition showWinner (winner : json) (t : Stamps) (w : World App)
    : option (result (World App) unit) :=
  match iterate (obj_get "winners" (state w)) with
  | Some winners =>
      let newWinners := winners ++ [JObj (winner_record winner (state w))] in
      Some (updateState run_state_callback
              (Some (JObj [("status", JStr "showing"); ("currentWinner", winner);
                           ("winners", JArr newWinners)]))
              true t w)
  | None => None
  end.

(** [completePrize]; [None] when the spread of [this.state.completedPrizes]
    throws.  An array element that is [undefined] is stored as [null]. *)
Definition completePrize (t : Stamps) (w : World App)
    : option (result (World App) unit) :=
  match iterate (obj_get "completedPrizes" (state w)) with
  | Some completed =>
      let completedPrizes :=
        completed ++ [default JNull (obj_get "currentPrize" (state w))] in
      Some (updateState run_state_callback
              (Some (JObj [("status", JStr "finished");
                           ("completedPrizes", JArr completedPrizes)]))
              true t w)
  | None => None
  end.

Definition clearAllData (t : Stamps) : M App unit :=
  updateState run_state_callback
    (Some (JObj [("status", JStr "waiting"); ("currentPrize", JNull);
                 ("currentWinner", JNull); ("winners", JArr []);
                 ("completedPrizes", JArr [])])) true t.

Definition onStateChange (callback : Handler) : M App unit :=
  modify (λ w, mkWorld (isConnected w) (localMode w) (connectionCallbacks w)
                 (localStorage w) (cloud w) (rejections w) (eventHandlers w)
                 (lastEventId w) (state w) (stateCallbacks w ++ [callback])
                 (app w) (trace w)).

(** The function [LotteryStateManager.init] registers for [STATE_CHANGED]:
    [(data) => this.updateState(data.state, false)].  Reading [state] off
    [null] throws; a value that is not an object has no such property. *)
Definition stateChanged_handler (data : json) (t : Stamps) : M App unit :=
  match data with
  | JNull => throw CallbackThrew
  | JObj fields => updateState run_state_callback (obj_get "state" fields) false t
  | JBool _ | JNum _ | JStr _ | JArr _ => updateState run_state_callback None false t
  end.

(** [LotteryStateManager.init]; [handler] names the function it registers. *)
Definition LotteryStateManager_init (handler : Handler) : M App unit :=
  let* savedState := getData "lotteryState" in
  (if truthy savedState
   then modify (λ w, set_state (spread2 (state w) (Some savedState)) w)
   else ret tt) ;;
  on EVENT_TYPES.STATE_CHANGED handler.

End StateManager.

(** ** The steps of [setData] and [updateState]

    [setData] and [updateState] are [async]: a call runs up to its [await]
    and the rest runs later, and other code may run in between. [setData]
    and [updateState] above are calls that run to their end with nothing in
    between; here are their steps. *)

(** What a suspended [updateState] holds on to: [oldState], the state it
    has passed to [setData], whether [setData] has made a request, and its
    argument [broadcast]. *)
Record Suspended : Type := mkSuspended {
  s_oldState : object;
  s_data : object;
  s_requested : bool;
  s_broadcast : bool
}.

(** The write of an event whose request is not settled yet. *)
Record Pending : Type := mkPending {
  p_path : string;
  p_data : json;
  p_requested : bool
}.

Section Steps.

Context {App : Type}.
Variable run_state_callback : Handler → json → json → App → outcome App.

(** [setData] up to its [await]: the value is cached and, online, the
    request is made; the result says whether one was made. ([saveToLocal]
    does not throw, so the [try] of [setData] matters from the request
    on.) *)
Definition setData_call (path : string) (data : json) : M App bool :=
  saveToLocal path data ;;
  gets online.

(** [setData] from its [await] on: the request, if one was made, is
    accepted or rejected. *)
Definition setData_settle (path : string) (data : json) (requested : bool)
    : M App bool :=
  if requested then
    try_catch
      (db_set path data ;; ret true)
      (λ _, saveToLocal path data ;; ret false)
  else ret true.

(** [updateState] up to [await this.firebaseCore.setData(...)]. *)
Definition updateState_call (newState : option json) (broadcast : bool)
    : M App Suspended :=
  let* oldState := gets state in
  modify (λ w, set_state (spread2 (state w) newState) w) ;;
  let* merged := gets state in
  let* requested := setData_call "lotteryState" (JObj merged) in
  ret (mkSuspended oldState merged requested broadcast).

(** The rest of the [setData] that [updateState] awaits. *)
Definition updateState_settle (s : Suspended) : M App bool :=
  setData_settle "lotteryState" (JObj (s_data s)) (s_requested s).

(** [sendEvent], through [broadcastEvent], up to the [await] of its
    [setData]. *)
Definition sendEvent_call (eventType : string) (eventData : json) (t : Stamps)
    : M App Pending :=
  let event :=
    mkEvent eventType eventData (event_now t)
      (generateEventId (id_now t) (id_random t)) in
  let* requested := setData_call ("events/" +:+ ev_id event) (event_json event) in
  ret (mkPending ("events/" +:+ ev_id event) (event_json event) requested).

(** [updateState] from its [await] on: the broadcast, which it does not
    await, and the callbacks, both with [this.state] as it is by then. The
    result is the write of the event, still to be settled. *)
Definition updateState_resume (s : Suspended) (t : Stamps)
    : M App (option Pending) :=
  let* pending :=
    (if s_broadcast s then
       let* current := gets state in
       let* p :=
         sendEvent_call EVENT_TYPES.STATE_CHANGED
           (JObj [("state", JObj current); ("timestamp", JNum (payload_now t))]) t in
       ret (Some p)
     else ret None) in
  let* current := gets state in
  triggerStateCallbacks run_state_callback (JObj current) (JObj (s_oldState s)) ;;
  ret pending.

(** The rest of the [setData] of the broadcast. *)
Definition broadcast_settle (pending : option Pending) : M App unit :=
  match pending with
  | Some p => setData_settle (p_path p) (p_data p) (p_requested p) ;; ret tt
  | None => ret tt
  end.

End Steps.

(** A round: [startLottery], then [showWinner], then [completePrize];
    [None] when one of the spreads throws. *)
Definition round {App} (rs : Handler → json → json → App → outcome App)
    (prize winner : json) (t1 t2 t3 : Stamps) (w : World App)
    : option (World App) :=
  let w1 := final (startLottery rs prize t1 w) in
  match showWinner rs winner t2 w1 with
  | Some r2 =>
      match completePrize rs t3 (final r2) with
      | Some r3 => Some (final r3)
      | None => None
      end
  | None => None
  end.

(** A state that has each of the keys of the default state, and no key
    twice. *)
Definition complete_state (st : object) : Prop :=
  NoDup st.*1 ∧ ∀ k, k ∈ default_state.*1 → is_Some (obj_get k st).

(** The calls [triggerStateCallbacks] makes, and the application state they
    leave. *)
Definition state_calls (cbs : list Handler) (newState oldState : json) : list Call :=
  (λ cb, StateCallback cb newState oldState) <$> cbs.

Definition told {App} (rs : Handler → json → json → App → outcome App)
    (cbs : list Handler) (newState oldState : json) (a : App) : App :=
  foldl (λ a cb, outcome_state (rs cb newState oldState a)) a cbs.

(** ** Subscriptions: [onDataChange], [offDataChange], [cleanup] *)

(** The second argument of a subscriber: ['cloud'] or ['local']. *)
Inductive Source : Type :=
| FromCloud
| FromLocal.

(** An entry of [this.listeners]: its [type], the path and the callback of
    the subscription, and the handle of what is attached for it (the
    listener put on the database reference, or the timer). *)
Record Listener : Type := mkListener {
  l_type : Source;
  l_path : string;
  l_callback : Handler;
  l_handle : nat
}.

(** [this.listeners] of [FirebaseCore]; the listeners and timers that are
    attached and running, by handle, with the next handle the database
    client or [setInterval] will give; and the two fields of [LotteryEvents]
    about its own subscription. *)
Record Subscriptions : Type := mkSubscriptions {
  listeners : gmap string Listener;
  active : gmap nat Listener;
  next_handle : nat;
  isListening : bool;
  eventListenerId : option string
}.

(** Every handle in use is below the next one to be given. *)
Definition handles_fresh (s : Subscriptions) : Prop :=
  (∀ h l, active s !! h = Some l → (h < next_handle s)%nat)
  ∧ (∀ i l, listeners s !! i = Some l → (l_handle l < next_handle s)%nat).

Section Subscribing.

Context {App : Type}.
Variable run_data_callback : Handler → json → Source → App → outcome App.

(** [onDataChange]: the identifier it returns and the subscriptions it
    leaves; [now] is the reading of [Date.now()]. *)
Definition onDataChange (path : string) (callback : Handler) (now : Z)
    (w : World App) (s : Subscriptions) : string * Subscriptions :=
  let listenerId := path +:+ "_" +:+ pretty now in
  let l :=
    mkListener (if isConnected w && negb (localMode w) then FromCloud else FromLocal)
      path callback (next_handle s) in
  (listenerId,
   mkSubscriptions (<[listenerId := l]> (listeners s))
     (<[next_handle s := l]> (active s)) (S (next_handle s))
     (isListening s) (eventListenerId s)).

Definition offDataChange (listenerId : string) (s : Subscriptions) : Subscriptions :=
  match listeners s !! listenerId with
  | Some l =>
      mkSubscriptions (delete listenerId (listeners s))
        (delete (l_handle l) (active s)) (next_handle s)
        (isListening s) (eventListenerId s)
  | None => s
  end.

(** [FirebaseCore.cleanup] *)
Definition FirebaseCore_cleanup (w : World App) (s : Subscriptions)
    : World App * Subscriptions :=
  let s' := map_fold (λ listenerId _ acc, offDataChange listenerId acc) s (listeners s) in
  (mkWorld (isConnected w) (localMode w) [] (localStorage w) (cloud w)
     (rejections w) (eventHandlers w) (lastEventId w) (state w)
     (stateCallbacks w) (app w) (trace w),
   mkSubscriptions ∅ (active s') (next_handle s') (isListening s')
     (eventListenerId s')).

(** The call of a subscriber. *)
Definition call_subscriber (callback : Handler) (data : json) (source : Source)
    : M App unit :=
  λ w, let w' a :=
         mkWorld (isConnected w) (localMode w) (connectionCallbacks w)
           (localStorage w) (cloud w) (rejections w) (eventHandlers w)
           (lastEventId w) (state w) (stateCallbacks w) a (trace w) in
       match run_data_callback callback data source (app w) with
       | Returns a => Ok tt (w' a)
       | Throws a => Raise CallbackThrew (w' a)
       end.

(** What a listener attached to the database does with a value of its
    path, and what a timer does at each tick. *)
Definition cloud_value (l : Listener) (data : json) : M App unit :=
  call_subscriber (l_callback l) data FromCloud ;;
  if not_null data then saveToLocal (l_path l) data else ret tt.

Definition checkLocal (l : Listener) : M App unit :=
  let* data := loadFromLocal (l_path l) in
  call_subscriber (l_callback l) data FromLocal.

(** [LotteryEvents.startListening] and [stopListening]; [listener] names
    the function [onEvent] subscribes to the [events] collection. *)
Definition startListening (listener : Handler) (now : Z) (w : World App)
    (s : Subscriptions) : Subscriptions :=
  if isListening s then s
  else
    let '(listenerId, s') := onDataChange "events" listener now w s in
    mkSubscriptions (listeners s') (active s') (next_handle s') true
      (Some listenerId).

Definition stopListening (s : Subscriptions) : Subscriptions :=
  if negb (isListening s) then s
  else
    let s' :=
      match eventListenerId s with
      | Some listenerId =>
          if negb (String.eqb listenerId "") then offDataChange listenerId s else s
      | None => s
      end in
    mkSubscriptions (listeners s') (active s') (next_handle s') false
      (eventListenerId s').

End Subscribing.

(** No subscription yet. *)
Definition no_subscriptions : Subscriptions := mkSubscriptions ∅ ∅ 0 false None.

(** ** The bridges *)

(** [a === b] on values read from two snapshots: primitive values are
    compared, two arrays or objects are never the same one. *)
Definition strict_eq (a b : json) : bool :=
  match a, b with
  | JNull, JNull => true
  | JBool x, JBool y => Bool.eqb x y
  | JNum x, JNum y => (x =? y)%Z
  | JStr x, JStr y => String.eqb x y
  | _, _ => false
  end.

Definition primitive (v : json) : bool :=
  match v with
  | JArr _ | JObj _ => false
  | _ => true
  end.

(** [v.k] for a key that is no index and not [length], on a value that is
    not [null]: a property of an object, [undefined] on any other value. *)
Definition field (k : string) (v : json) : option json :=
  match v with
  | JObj fields => obj_get k fields
  | _ => None
  end.

Definition truthy_opt (v : option json) : bool := from_option truthy false v.

Section Bridges.

Context {App : Type}.

(** What the [storage] listeners of the page do with an event for a key,
    its new value and its old value when the event has one; and the
    function [handleLotteryEvent] of the page, when it has one. They are the
    page's own scripts. *)
Variable run_storage_listeners : string → json → option json → App → App.
Variable handleLotteryEvent : option (json → M App unit).

(** [window.dispatchEvent(new StorageEvent('storage', {...}))] *)
Definition dispatch_storage (key : string) (newValue : json) (oldValue : option json)
    : M App unit :=
  modify (λ w, mkWorld (isConnected w) (localMode w) (connectionCallbacks w)
                 (localStorage w) (cloud w) (rejections w) (eventHandlers w)
                 (lastEventId w) (state w) (stateCallbacks w)
                 (run_storage_listeners key newValue oldValue (app w)) (trace w)).

(** [localStorage.setItem(key, JSON.stringify(value))] on a key used as it
    is, without the prefix of the adapter. *)
Definition setItem (key : string) (value : json) : M App unit :=
  modify (λ w, set_localStorage (<[key := value]> (localStorage w)) w).

(** [syncAdminToFirebase] of the simplified bridge; an item that is absent
    or empty is skipped. *)
Definition syncAdminToFirebase : M App unit :=
  let* connected := gets isConnected in
  if negb connected then ret tt
  else
    forEach ["prizes"; "employees"; "winners"; "bonusSettings"; "lotteryState"]
      (λ key,
         let* data := gets (λ w, localStorage w !! key) in
         match data with
         | Some parsed => try_catch (setData key parsed ;; ret tt) (λ _, ret tt)
         | None => ret tt
         end).

(** [syncMobileFromFirebase] of the simplified bridge, up to the call of
    the page's [loadAvailablePrizes] it schedules. *)
Definition syncMobileFromFirebase : M App unit :=
  let* connected := gets isConnected in
  if negb connected then ret tt
  else
    let* prizes := getData "prizes" in
    (if truthy prizes then setItem "prizes" prizes else ret tt) ;;
    let* winners := getData "winners" in
    (if truthy winners then setItem "winners" winners else ret tt) ;;
    let* settings := getData "bonusSettings" in
    (if truthy settings then setItem "bonusSettings" settings else ret tt) ;;
    let* employees := getData "employees" in
    (if truthy employees then setItem "employees" employees else ret tt).

(** [dispatchStorageLike] of the RTDB bridge. *)
Definition dispatchStorageLike (key : string) (valueObj : json) : M App unit :=
  let value := if truthy valueObj then valueObj else JNull in
  try_catch (setItem key value) (λ _, ret tt) ;;
  try_catch (dispatch_storage key value None) (λ _, ret tt).

(** The function [initAdmin] subscribes to [remoteLotteryEvent]; the state
    is the world and [lastCommandId], the variable the function closes
    over. *)
Definition remoteLotteryEvent_value (command : json)
    : Comp (World App * json) unit :=
  λ s,
    let w := s.1 in
    let lastCommandId := s.2 in
    if negb (truthy command) then Ok tt (w, lastCommandId)
    else
      let id := field "id" command in
      if truthy_opt id && strict_eq (default JNull id) lastCommandId
      then Ok tt (w, lastCommandId)
      else
        let lastCommandId := if truthy_opt id then default JNull id else JNull in
        if from_option (λ source, strict_eq source (JStr "admin")) false
             (field "source" command)
        then Ok tt (w, lastCommandId)
        else
          let event :=
            if truthy_opt (field "event" command)
            then default JNull (field "event" command) else command in
          match
            try_catch (dispatchStorageLike "lotteryEvent" event)
              (λ _, match handleLotteryEvent with
                    | Some handle => handle event
                    | None => ret tt
                    end) w
          with
          | Ok _ w' => Ok tt (w', lastCommandId)
          | Raise e w' => Raise e (w', lastCommandId)
          end.

End Bridges.

(** One step of [syncMobileFromFirebase]: a read and the copy of what it
    gives. *)
Definition pull {App} (key : string) : M App unit :=
  let* value := getData key in
  if truthy value then setItem key value else ret tt.

(** The keys both [syncAdminToFirebase] and [syncMobileFromFirebase] carry. *)
Definition sharedKeys : list string :=
  ["prizes"; "winners"; "bonusSettings"; "employees"].

(** * Properties *)

(** ** Laws of the computations *)

Section Laws.

Context {App : Type}.

Lemma final_bind {A B} (m : M App A) (k : A → M App B) w :
  final (bind m k w)
  = match m w with
    | Ok a w' => final (k a w')
    | Raise _ w' => w'
    end.
Proof. unfold bind. by destruct (m w). Qed.

Lemma keeps_ret {X A} (f : World App → X) (a : A) : keeps f (ret a).
Proof. by intros w. Qed.

Lemma keeps_throw {X A} (f : World App → X) e : keeps f (throw (A:=A) e).
Proof. by intros w. Qed.

Lemma keeps_gets {X A} (f : World App → X) (g : World App → A) : keeps f (gets g).
Proof. by intros w. Qed.

Lemma keeps_modify {X} (f : World App → X) g :
  (∀ w, f (g w) = f w) → keeps f (modify g).
Proof. intros Hg w. apply Hg. Qed.

Lemma keeps_bind {X A B} (f : World App → X) (m : M App A) (k : A → M App B) :
  keeps f m → (∀ a, keeps f (k a)) → keeps f (bind m k).
Proof.
  intros Hm Hk w. rewrite final_bind. specialize (Hm w).
  destruct (m w) as [a w'|e w']; cbn in Hm; [|done].
  by rewrite Hk.
Qed.

Lemma keeps_try_catch {X A} (f : World App → X) (m : M App A) h :
  keeps f m → (∀ e, keeps f (h e)) → keeps f (try_catch m h).
Proof.
  intros Hm Hh w. unfold try_catch. specialize (Hm w).
  destruct (m w) as [a w'|e w']; cbn in Hm; [done|].
  by rewrite Hh.
Qed.

Lemma keeps_forEach {X A} (f : World App → X) (l : list A) g :
  (∀ x, keeps f (g x)) → keeps f (forEach l g).
Proof.
  intros Hg. induction l as [|x l IH]; cbn [forEach].
  - apply keeps_ret.
  - by apply keeps_bind.
Qed.

Lemma safe_ret {A} (a : A) : safe (App:=App) (ret a).
Proof. by intros w; eexists. Qed.

Lemma safe_gets {A} (g : World App → A) : safe (gets g).
Proof. by intros w; eexists. Qed.

Lemma safe_modify (g : World App → World App) : safe (modify g).
Proof. by intros w; eexists. Qed.

Lemma safe_bind {A B} (m : M App A) (k : A → M App B) :
  safe m → (∀ a, safe (k a)) → safe (bind m k).
Proof.
  intros Hm Hk w. unfold bind. destruct (Hm w) as [a Ha].
  destruct (m w) as [a' w'|e w']; [|done]. apply Hk.
Qed.

Lemma safe_try_catch {A} (m : M App A) h :
  (∀ e, safe (h e)) → safe (try_catch m h).
Proof.
  intros Hh w. unfold try_catch.
  destruct (m w) as [a w'|e w']; [by eexists|]. apply Hh.
Qed.

Lemma safe_forEach {A} (l : list A) (g : A → M App unit) :
  (∀ x, safe (g x)) → safe (forEach l g).
Proof.
  intros Hg. induction l as [|x l IH]; cbn [forEach].
  - apply safe_ret.
  - by apply safe_bind.
Qed.

(** A safe computation returns, and its result can be named. *)
Lemma safe_run {A} (m : M App A) w :
  safe m → ∃ a, m w = Ok a (final (m w)).
Proof.
  intros Hm. destruct (Hm w) as [a Ha].
  destruct (m w) as [a' w'|e w']; [by eexists|done].
Qed.

End Laws.

(** Goals [keeps f m] and [safe m] on the code of the client: follow the
    structure of [m], splitting its conditionals. *)
Ltac step_through :=
  repeat first
    [ progress intros
    | apply keeps_ret | apply keeps_throw | apply keeps_gets
    | apply keeps_bind | apply keeps_try_catch | apply keeps_forEach
    | apply keeps_modify; intros; first [reflexivity | by destruct (_ !! _)]
    | apply safe_ret | apply safe_gets | apply safe_modify
    | apply safe_bind | apply safe_try_catch | apply safe_forEach
    | match goal with
      | |- keeps _ (if ?c then _ else _) => destruct c
      | |- keeps _ (match ?x with _ => _ end) => destruct x
      | |- safe (if ?c then _ else _) => destruct c
      | |- safe (match ?x with _ => _ end) => destruct x
      end ].

(** ** The adapter: writes, reads and the local cache *)

Section Adapter.

Context {App : Type}.
Implicit Types (w : World App) (path : string) (data v : json).

Lemma saveToLocal_run path data w :
  saveToLocal path data w
  = Ok tt (set_localStorage (<[localKey path := data]> (localStorage w)) w).
Proof. reflexivity. Qed.

Lemma loadFromLocal_run path w :
  loadFromLocal path w = Ok (default JNull (localStorage w !! localKey path)) w.
Proof. reflexivity. Qed.

Lemma db_set_accepted path data w :
  next_rejected w = false →
  db_set path data w
  = Ok tt (set_cloud (<[path := data]> (cloud w)) (tail (rejections w)) w).
Proof.
  unfold next_rejected, db_set. by destruct (rejections w) as [|[] rs].
Qed.

Lemma db_set_rejected path data w :
  next_rejected w = true →
  db_set path data w = Raise RemoteRejected (set_cloud (cloud w) (tail (rejections w)) w).
Proof.
  unfold next_rejected, db_set. by destruct (rejections w) as [|[] rs].
Qed.

Lemma online_set_localStorage ls w : online (set_localStorage ls w) = online w.
Proof. reflexivity. Qed.

Lemma online_set_cloud c rs w : online (set_cloud c rs w) = online w.
Proof. reflexivity. Qed.

Lemma next_rejected_set_localStorage ls w :
  next_rejected (set_localStorage ls w) = next_rejected w.
Proof. reflexivity. Qed.

(** [setData], case by case. *)
Lemma setData_offline path data w :
  online w = false →
  setData path data w
  = Ok true (set_localStorage (<[localKey path := data]> (localStorage w)) w).
Proof.
  intros Hoff. unfold setData, try_catch, bind, gets.
  rewrite saveToLocal_run, online_set_localStorage, Hoff. reflexivity.
Qed.

Lemma setData_accepted path data w :
  online w = true → next_rejected w = false →
  setData path data w
  = Ok true
      (set_cloud (<[path := data]> (cloud w)) (tail (rejections w))
         (set_localStorage (<[localKey path := data]> (localStorage w)) w)).
Proof.
  intros Hon Hacc. unfold setData, try_catch, bind, gets.
  rewrite saveToLocal_run, online_set_localStorage, Hon.
  rewrite db_set_accepted by done. reflexivity.
Qed.

Lemma setData_rejected path data w :
  online w = true → next_rejected w = true →
  setData path data w
  = Ok false
      (set_localStorage (<[localKey path := data]> (<[localKey path := data]> (localStorage w)))
         (set_cloud (cloud w) (tail (rejections w))
            (set_localStorage (<[localKey path := data]> (localStorage w)) w))).
Proof.
  intros Hon Hrej. unfold setData, try_catch, bind, gets.
  rewrite saveToLocal_run, online_set_localStorage, Hon.
  rewrite db_set_rejected by done. reflexivity.
Qed.

(** [setData] never throws. *)
Lemma setData_returns path data w :
  ∃ b, returned (setData path data w) = Some b.
Proof.
  destruct (online w) eqn:Hon.
  - destruct (next_rejected w) eqn:Hrej.
    + rewrite setData_rejected by done. by eexists.
    + rewrite setData_accepted by done. by eexists.
  - rewrite setData_offline by done. by eexists.
Qed.

(** [getData], case by case. *)
Lemma getData_offline path w :
  online w = false →
  getData path w = Ok (default JNull (localStorage w !! localKey path)) w.
Proof.
  intros Hoff. unfold getData, try_catch, bind, gets. rewrite Hoff. reflexivity.
Qed.

Lemma getData_rejected path w :
  online w = true → next_rejected w = true →
  getData path w
  = Ok (default JNull (localStorage w !! localKey path))
      (set_cloud (cloud w) (tail (rejections w)) w).
Proof.
  intros Hon Hrej. unfold getData, try_catch, bind, gets. rewrite Hon.
  unfold db_once. unfold next_rejected in Hrej.
  destruct (rejections w) as [|[] rs]; try discriminate. reflexivity.
Qed.

Lemma getData_null path w :
  online w = true → next_rejected w = false →
  default JNull (cloud w !! path) = JNull →
  getData path w
  = Ok (default JNull (localStorage w !! localKey path))
      (set_cloud (cloud w) (tail (rejections w)) w).
Proof.
  intros Hon Hacc Hnull. unfold getData, try_catch, bind, gets. rewrite Hon.
  unfold db_once. unfold next_rejected in Hacc.
  destruct (rejections w) as [|[] rs] eqn:Hrs; try discriminate;
    rewrite Hnull; cbn; [|reflexivity].
  destruct w; cbn in *; by subst.
Qed.

Lemma getData_value path w :
  online w = true → next_rejected w = false →
  not_null (default JNull (cloud w !! path)) = true →
  getData path w
  = Ok (default JNull (cloud w !! path))
      (set_localStorage
         (<[localKey path := default JNull (cloud w !! path)]> (localStorage w))
         (set_cloud (cloud w) (tail (rejections w)) w)).
Proof.
  intros Hon Hacc Hval. unfold getData, try_catch, bind, gets. rewrite Hon.
  unfold db_once. unfold next_rejected in Hacc.
  destruct (rejections w) as [|[] rs] eqn:Hrs; try discriminate;
    rewrite Hval; cbn; [|reflexivity].
  destruct w; cbn in *; by subst.
Qed.

(** [syncLocalToCloud] and the connectivity listener *)

Lemma all_accepted_next w :
  all_accepted (rejections w) → next_rejected w = false.
Proof.
  unfold all_accepted, next_rejected. intros H.
  destruct (rejections w) as [|[] rs]; [done| |done].
  by apply Forall_cons in H as [? _].
Qed.



Lemma flags_pushed path w : flags (pushed path w) = flags w.
Proof. unfold pushed. by destruct (truthy _). Qed.










(** C9: a connected read that succeeds and finds no data at [p] returns
    the cache entry of [p] ([null] when there is none) and leaves the cache
    as it was. *)
Theorem getData_remote_null w path :
  online w = true → next_rejected w = false →
  default JNull (cloud w !! path) = JNull →
  returned (getData path w) = Some (default JNull (localStorage w !! localKey path))
  ∧ localStorage (final (getData path w)) = localStorage w.
Proof.
  intros Hon Hacc Hnull. by rewrite getData_null.
Qed.

(** C10: paths with the same local key share a cache entry, so an offline
    write at one is read back offline at the other; ['events/x'] and
    ['events_x'] are distinct paths with the same key. *)
Theorem localKey_collision :
  (∀ p q w v, localKey p = localKey q → online w = false →
     returned (getData q (final (setData p v w))) = Some v)
  ∧ "events/x" ≠ "events_x"
  ∧ localKey "events/x" = localKey "events_x".
Proof.
  split; [|split; [discriminate|reflexivity]].
  intros p q w v Hkey Hoff. rewrite setData_offline by done. cbn [final].
  rewrite getData_offline by done. cbn [returned localStorage set_localStorage].
  by rewrite Hkey, lookup_insert_eq.
Qed.

(** C8: [broadcastEvent] answers [true] whenever [sendEvent] returns,
    whatever [sendEvent] returned; when the remote write of the event is
    rejected, [setData] and [sendEvent] answer [false] and [broadcastEvent]
    still answers [true]. *)
Theorem broadcastEvent_discards_result w eventType eventData t :
  (∀ b w', sendEvent eventType eventData t w = Ok b w' →
     broadcastEvent eventType eventData t w = Ok true w')
  ∧ (online w = true → next_rejected w = true →
     let event :=
       mkEvent eventType eventData (event_now t)
         (generateEventId (id_now t) (id_random t)) in
     returned (setData ("events/" +:+ ev_id event) (event_json event) w) = Some false
     ∧ returned (sendEvent eventType eventData t w) = Some false
     ∧ returned (broadcastEvent eventType eventData t w) = Some true).
Proof.
  split.
  - intros b w' Hsend. unfold broadcastEvent, try_catch, bind.
    by rewrite Hsend.
  - intros Hon Hrej event. unfold broadcastEvent, try_catch, bind, sendEvent.
    fold event. by rewrite setData_rejected.
Qed.

(** [sendEvent], hence [broadcastEvent], never throws. *)
Lemma broadcastEvent_returns w eventType eventData t :
  returned (broadcastEvent eventType eventData t w) = Some true.
Proof.
  unfold broadcastEvent, try_catch, bind, sendEvent.
  destruct (setData_returns
              ("events/" +:+ generateEventId (id_now t) (id_random t))
              (event_json (mkEvent eventType eventData (event_now t)
                             (generateEventId (id_now t) (id_random t)))) w)
    as [b Hb].
  cbn [ev_id]. by destruct (setData _ _ w).
Qed.

End Adapter.

Lemma getData_remote_null_witness :
  let w := client true {["lottery_prizes" := JNum 7]} ∅ [] in
  returned (getData "prizes" w)
  = Some (default JNull (localStorage w !! localKey "prizes"))
  ∧ localStorage (final (getData "prizes" w)) = localStorage w.
Proof.
  apply (getData_remote_null (client true {["lottery_prizes" := JNum 7]} ∅ []) "prizes");
    vm_compute; reflexivity.
Defined.

Lemma localKey_collision_witness :
  returned (getData "events_x"
              (final (setData "events/x" (JStr "v") (client false ∅ ∅ []))))
  = Some (JStr "v").
Proof.
  apply (proj1 localKey_collision "events/x" "events_x" (client false ∅ ∅ []));
    vm_compute; reflexivity.
Defined.

Lemma broadcastEvent_discards_result_witness :
  returned (sendEvent "STOP_LOTTERY" (JObj []) noon (client true ∅ ∅ [true]))
  = Some false
  ∧ returned (broadcastEvent "STOP_LOTTERY" (JObj []) noon (client true ∅ ∅ [true]))
    = Some true.
Proof.
  refine (proj2 (proj2 (broadcastEvent_discards_result (client true ∅ ∅ [true])
                          "STOP_LOTTERY" (JObj []) noon) _ _));
    vm_compute; reflexivity.
Defined.

(** ** Connectivity *)

Ltac open_client :=
  unfold perform, updateState, LotteryEvents_updateState, triggerStateCallbacks,
    startListening_value, onEvent_value, handleIncomingEvent, broadcastEvent,
    sendEvent, on, off, onConnectionChange, syncLocalToCloud,
    triggerConnectionCallbacks, setData, getData, saveToLocal, loadFromLocal.

(** The leaves [step_through] stops at: a request to the database and the
    call of a handler or callback. *)
Ltac leaf :=
  let w := fresh "w" in
  intros w;
  first
    [ unfold db_set; by destruct (rejections w) as [|[] ?]
    | unfold db_once; by destruct (rejections w) as [|[] ?]
    | cbv zeta;
      match goal with
      | |- context [match ?r with Returns _ => _ | Throws _ => _ end] =>
          by destruct r
      end ].

Section Connectivity.

Context {App : Type}.
Variable rh : Handler → json → Event → App → outcome App.
Variable rc : Handler → bool → bool → App → outcome App.
Variable rs : Handler → json → json → App → outcome App.
Implicit Types (w : World App).


Lemma syncLocalToCloud_keeps_flags : keeps (App:=App) flags syncLocalToCloud.
Proof. open_client; step_through; leaf. Qed.

Lemma triggerConnectionCallbacks_keeps {X} (f : World App → X) connected :
  (∀ a c w, f (set_app a c w) = f w) →
  keeps f (triggerConnectionCallbacks rc connected).
Proof.
  intros Hf. open_client; step_through.
  intros w. cbv zeta. destruct (rc _ _ _ _); apply Hf.
Qed.


Lemma setupConnectionMonitoring_value_flags val w :
  flags (final (setupConnectionMonitoring_value rc val w))
  = (is_true val, negb (is_true val)).
Proof.
  unfold setupConnectionMonitoring_value.
  rewrite final_bind. cbn [modify]. rewrite final_bind. cbn [gets isConnected set_flags].
  rewrite final_bind.
  destruct (is_true val); cbn [negb].
  - unfold bind at 1. cbn [modify].
    set (w1 := set_flags _ false _).
    pose proof (syncLocalToCloud_keeps_flags w1) as Hsync.
    destruct (syncLocalToCloud w1) as [[] w2|e w2]; cbn [final] in Hsync.
    + rewrite final_bind. cbn [gets].
      by rewrite triggerConnectionCallbacks_keeps.
    + done.
  - cbn [modify]. rewrite final_bind. cbn [gets].
    by rewrite triggerConnectionCallbacks_keeps.
Qed.


Lemma flags_inv w c l : flags w = (c, l) → isConnected w = c ∧ localMode w = l.
Proof. unfold flags. by intros [= -> ->]. Qed.









End Connectivity.







(** ** The event bus *)

Section Bus.

Context {App : Type}.
Variable rh : Handler → json → Event → App → outcome App.
Implicit Types (w : World App) (e event : Event) (n : Notification).

(** The head of the sorted list is an event of the list with the greatest
    timestamp. *)
Lemma insert_desc_head e l :
  head (insert_desc e l)
  = Some (match head l with
          | Some x => if (ev_timestamp x <=? ev_timestamp e)%Z then e else x
          | None => e
          end).
Proof.
  destruct l as [|x l]; [done|]. cbn.
  by destruct (ev_timestamp x <=? ev_timestamp e)%Z.
Qed.

Lemma sort_desc_head_max l e :
  head (sort_desc l) = Some e →
  e ∈ l ∧ ∀ x, x ∈ l → (ev_timestamp x ≤ ev_timestamp e)%Z.
Proof.
  revert e. induction l as [|a l IH]; intros e; [done|].
  cbn [sort_desc foldr]. fold (sort_desc l). rewrite insert_desc_head.
  destruct (head (sort_desc l)) as [m|] eqn:Hm.
  - destruct (IH m eq_refl) as [Hin Hmax].
    destruct (Z.leb_spec (ev_timestamp m) (ev_timestamp a)) as [Hle|Hlt];
      intros [= <-].
    + split; [by left|]. intros x Hx.
      apply elem_of_cons in Hx as [->|Hx]; [lia|].
      specialize (Hmax x Hx). lia.
    + split; [by right|]. intros x Hx.
      apply elem_of_cons in Hx as [->|Hx]; [lia|].
      by apply Hmax.
  - intros [= <-]. destruct l as [|b l].
    + split; [by left|]. intros x Hx.
      apply elem_of_cons in Hx as [->|Hx]; [lia|].
      by apply elem_of_nil in Hx.
    + cbn in Hm. fold (sort_desc l) in Hm. by rewrite insert_desc_head in Hm.
Qed.

(** The event the listener picks, the head of the sorted collection, is the
    latest event of the collection. *)
Lemma head_sort_desc_latest (l : list Event) e :
  head (sort_desc l) = Some e ↔ is_latest l e.
Proof.
  unfold is_latest.
  revert e. induction l as [|a l IH]; intros e.
  { split; [done|]. intros (l1 & l2 & Hl & _). by destruct l1. }
  cbn [sort_desc foldr]. fold (sort_desc l). rewrite insert_desc_head.
  destruct (head (sort_desc l)) as [m|] eqn:Hm.
  + destruct (proj1 (IH m) eq_refl) as (l1 & l2 & -> & Hl1 & Hl2).
    destruct (Z.leb_spec (ev_timestamp m) (ev_timestamp a)) as [Hle|Hlt].
    * split.
      -- intros [= <-]. exists [], (l1 ++ m :: l2). split; [done|].
         split; [done|]. apply Forall_app. split.
         ++ eapply Forall_impl; [exact Hl1|]. cbn. lia.
         ++ constructor; [done|].
            eapply Forall_impl; [exact Hl2|]. cbn. lia.
      -- intros (k1 & k2 & Hk & Hk1 & Hk2). destruct k1 as [|b k1].
         ++ by injection Hk as -> _.
         ++ injection Hk as <- Hk. apply Forall_cons in Hk1 as [Hb Hk1].
            assert (Hin : e ∈ l1 ++ m :: l2).
            { rewrite Hk. apply elem_of_app. right. by left. }
            assert ((ev_timestamp e ≤ ev_timestamp m)%Z).
            { apply elem_of_app in Hin as [Hin|Hin].
              - rewrite Forall_forall in Hl1. specialize (Hl1 e Hin). cbn in Hl1. lia.
              - apply elem_of_cons in Hin as [->|Hin]; [lia|].
                rewrite Forall_forall in Hl2. by apply Hl2. }
            lia.
    * split.
      -- intros [= <-]. exists (a :: l1), l2. split; [done|].
         split; [by constructor|done].
      -- intros (k1 & k2 & Hk & Hk1 & Hk2). destruct k1 as [|b k1].
         ++ injection Hk as -> Hk. rewrite <- Hk in Hk2.
            apply Forall_app in Hk2 as [_ Hk2].
            apply Forall_cons in Hk2 as [Hm' _]. lia.
         ++ injection Hk as <- Hk. apply Forall_cons in Hk1 as [_ Hk1].
            apply IH. by exists k1, k2.
  + assert (l = []) as ->.
    { destruct l as [|b l]; [done|]. cbn in Hm. fold (sort_desc l) in Hm.
      by rewrite insert_desc_head in Hm. }
    split.
    * intros [= <-]. by exists [], [].
    * intros (k1 & k2 & Hk & _).
      destruct k1 as [|b k1]; [by injection Hk as ->|].
      injection Hk as _ Hk. by destruct k1.
Qed.

Lemma after_calls_nil w : after_calls (app w) [] w = w.
Proof. unfold after_calls. destruct w; cbn. by rewrite app_nil_r. Qed.

(** The loop over the handlers calls each of them, whether the ones before
    it threw or not. *)
Lemma dispatch_run handlers event w :
  forEach handlers (λ handler,
    try_catch
      (λ w, let c := Invoked handler (ev_data event) event in
            match rh handler (ev_data event) event (app w) with
            | Returns a => Ok tt (set_app a c w)
            | Throws a => Raise CallbackThrew (set_app a c w)
            end)
      (λ _, ret tt)) w
  = Ok tt (after_calls (handled rh handlers event (app w))
             (invocations handlers event) w).
Proof.
  revert w. induction handlers as [|h handlers IH]; intros w.
  - cbn. by rewrite after_calls_nil.
  - cbn [forEach]. unfold bind at 1, try_catch at 1. cbv zeta.
    destruct (rh h (ev_data event) event (app w)) as [a|a] eqn:Hrun;
      (cbn [ret]; rewrite IH; f_equal;
       unfold after_calls, set_app, handled, invocations; cbn;
       rewrite Hrun; cbn; by rewrite <- app_assoc).
Qed.

Lemma handleIncomingEvent_duplicate event w :
  Some (ev_id event) = lastEventId w →
  handleIncomingEvent rh event w = Ok tt w.
Proof.
  intros Hdup. unfold handleIncomingEvent, bind, gets. by rewrite decide_True.
Qed.

Lemma handleIncomingEvent_new event w :
  Some (ev_id event) ≠ lastEventId w →
  handleIncomingEvent rh event w
  = Ok tt
      (let handlers := default [] (eventHandlers w !! ev_type event) in
       after_calls (handled rh handlers event (app w))
         (Received event :: invocations handlers event)
         (set_lastEventId (Some (ev_id event)) w)).
Proof.
  intros Hnew. unfold handleIncomingEvent. unfold bind at 1. cbn [gets].
  rewrite decide_False by done.
  unfold bind at 1. cbn [modify]. unfold bind at 1. cbn [modify].
  unfold bind at 1. cbn [gets log set_app set_lastEventId eventHandlers].
  destruct (eventHandlers w !! ev_type event) as [handlers|]; cbn [default].
  - rewrite dispatch_run. f_equal. unfold after_calls; cbn.
    by rewrite <- app_assoc.
  - done.
Qed.

Lemma handleIncomingEvent_safe event : safe (handleIncomingEvent rh event).
Proof. open_client. step_through. Qed.

(** C7: the dispatch of an event to the handlers registered for its type
    calls every one of them with the same event, in the order of
    registration, whichever of them throw ([rh] is arbitrary), and returns
    normally: the trace gains one call per handler and the application is
    left as the calls leave it, a throwing one included. *)
Theorem handler_errors_isolated :
  (∀ w event, returned (handleIncomingEvent rh event w) = Some tt)
  ∧ (∀ w event handlers,
       eventHandlers w !! ev_type event = Some handlers →
       Some (ev_id event) ≠ lastEventId w →
       ∃ w', handleIncomingEvent rh event w = Ok tt w'
             ∧ trace w' = trace w ++ Received event :: invocations handlers event
             ∧ (∀ h, h ∈ handlers → Invoked h (ev_data event) event ∈ trace w')
             ∧ app w' = handled rh handlers event (app w)).
Proof.
  split.
  - intros w event. by destruct (handleIncomingEvent_safe event w) as [[] ->].
  - intros w event handlers Hreg Hnew.
    rewrite handleIncomingEvent_new by done. rewrite Hreg. cbn [default].
    eexists. split; [done|]. cbn [trace app after_calls set_lastEventId].
    split; [done|]. split; [|done].
    intros h Hh. apply elem_of_app. right. right.
    unfold invocations. apply list_elem_of_fmap. by exists h.
Qed.

(** One notification: the listener hands the latest event to
    [handleIncomingEvent] when it is fresh, and does nothing otherwise. *)
Lemma startListening_value_cases n w :
  (∃ e, fresh_latest n e
        ∧ startListening_value rh (snapshot n) (at_time n) w
          = handleIncomingEvent rh e w)
  ∨ ((∀ e, ¬ fresh_latest n e)
     ∧ startListening_value rh (snapshot n) (at_time n) w = Ok tt w).
Proof.
  unfold startListening_value, onEvent_value, fresh_latest.
  destruct (snapshot n) as [entries|]; [|right; split; [|done]].
  - destruct (head (sort_desc entries.*2)) as [latest|] eqn:Hhead;
      [|right; split; [|done]].
    + destruct (Z.ltb_spec (at_time n - ev_timestamp latest) 5000) as [Hlt|Hge].
      * left. exists latest. split; [|done]. exists entries.
        split; [done|]. split; [by apply head_sort_desc_latest|done].
      * right. split; [|done]. intros e (entries' & [= <-] & Hhead' & Hlt).
        apply head_sort_desc_latest in Hhead'.
        rewrite Hhead in Hhead'. injection Hhead' as <-. lia.
    + intros e (entries' & [= <-] & Hhead' & _).
      apply head_sort_desc_latest in Hhead'. by rewrite Hhead in Hhead'.
  - intros e (entries' & Hsnap & _). done.
Qed.

Lemma fresh_latest_unique n e e' :
  fresh_latest n e → fresh_latest n e' → e = e'.
Proof.
  intros (entries & Hs & Hh & _) (entries' & Hs' & Hh' & _).
  rewrite Hs in Hs'. injection Hs' as <-.
  apply head_sort_desc_latest in Hh, Hh'. rewrite Hh in Hh'. by injection Hh'.
Qed.

Lemma notification_step n w :
  ∃ w' calls,
    startListening_value rh (snapshot n) (at_time n) w = Ok tt w'
    ∧ trace w' = trace w ++ calls
    ∧ ((∃ e, fresh_latest n e
             ∧ Some (ev_id e) ≠ lastEventId w
             ∧ calls = Received e
                       :: invocations (default [] (eventHandlers w !! ev_type e)) e
             ∧ lastEventId w' = Some (ev_id e))
       ∨ ((∀ e, fresh_latest n e → Some (ev_id e) = lastEventId w)
          ∧ calls = []
          ∧ lastEventId w' = lastEventId w)).
Proof.
  destruct (startListening_value_cases n w) as [(e & He & ->)|[Hnone ->]].
  - destruct (decide (Some (ev_id e) = lastEventId w)) as [Hdup|Hnew].
    + rewrite handleIncomingEvent_duplicate by done.
      exists w, []. rewrite app_nil_r. do 2 (split; [done|]). right.
      split; [|done]. intros e' He'. by rewrite (fresh_latest_unique n e' e).
    + rewrite handleIncomingEvent_new by done.
      eexists _, _. split; [done|]. split; [done|]. left. by exists e.
  - exists w, []. rewrite app_nil_r. do 2 (split; [done|]). right.
    split; [|done]. intros e He. by destruct (Hnone e).
Qed.

Lemma received_invocations handlers e : received (invocations handlers e) = [].
Proof. unfold received, invocations. by induction handlers. Qed.

Lemma received_app tr1 tr2 : received (tr1 ++ tr2) = received tr1 ++ received tr2.
Proof. apply omap_app. Qed.

(** C4: whatever the handlers registered, the calls a notification leads to
    are all made with one event of the collection, of greatest timestamp,
    read less than 5000ms after that timestamp; so an event whose timestamp
    is more than 5000ms in the past is handed to no handler. *)
Theorem stale_event_not_dispatched w events now :
  ∃ w' calls,
    startListening_value rh events now w = Ok tt w'
    ∧ trace w' = trace w ++ calls
    ∧ (∀ c, c ∈ calls →
         ∃ e entries,
           call_event c = Some e
           ∧ events = Some entries
           ∧ e ∈ entries.*2
           ∧ (∀ x, x ∈ entries.*2 → (ev_timestamp x ≤ ev_timestamp e)%Z)
           ∧ (now - ev_timestamp e < 5000)%Z)
    ∧ (∀ e, (now - ev_timestamp e > 5000)%Z →
         ∀ c, c ∈ calls → call_event c ≠ Some e).
Proof.
  destruct (notification_step (mkNotification events now) w)
    as (w' & calls & Hrun & Htrace & Hcases).
  cbn [snapshot at_time] in Hrun.
  exists w', calls. do 2 (split; [done|]).
  assert (Hcalls : ∀ c, c ∈ calls →
            ∃ e entries,
              call_event c = Some e
              ∧ events = Some entries
              ∧ e ∈ entries.*2
              ∧ (∀ x, x ∈ entries.*2 → (ev_timestamp x ≤ ev_timestamp e)%Z)
              ∧ (now - ev_timestamp e < 5000)%Z).
  { intros c Hc.
    destruct Hcases as [(e & (entries & Hsnap & Hhead & Hfresh) & _ & -> & _)
                       |(_ & -> & _)];
      [|by apply elem_of_nil in Hc].
    cbn [snapshot at_time] in *.
    apply head_sort_desc_latest in Hhead.
    destruct (sort_desc_head_max _ _ Hhead) as [Hin Hmax].
    exists e, entries.
    split; [|done].
    apply elem_of_cons in Hc as [->|Hc]; [done|].
    unfold invocations in Hc. apply list_elem_of_fmap in Hc as (h & -> & _).
    done. }
  split; [done|].
  intros e Hstale c Hc Hce.
  destruct (Hcalls c Hc) as (e' & entries & Hce' & _ & _ & _ & Hfresh).
  rewrite Hce in Hce'. injection Hce' as <-. lia.
Qed.

(** C3 (amended): a notification is dispatched if and only if the latest
    event of its collection (the event of greatest timestamp, the first of
    them in the collection when several have it) is less than 5000ms old
    and its identifier differs from the one dispatched last; the dispatch
    then calls each handler registered for the type of the event once.
    Hence a redelivery of the identifier dispatched last triggers nothing,
    and in any sequence of notifications no two dispatches in a row carry
    the same identifier. *)
Theorem dispatch_deduplicates_against_last :
  (∀ w n, ∃ w' calls,
     startListening_value rh (snapshot n) (at_time n) w = Ok tt w'
     ∧ trace w' = trace w ++ calls
     ∧ ((∃ e, fresh_latest n e
              ∧ Some (ev_id e) ≠ lastEventId w
              ∧ calls = Received e
                        :: invocations (default [] (eventHandlers w !! ev_type e)) e
              ∧ lastEventId w' = Some (ev_id e))
        ∨ ((∀ e, fresh_latest n e → Some (ev_id e) = lastEventId w)
           ∧ calls = []
           ∧ lastEventId w' = lastEventId w)))
  ∧ (∀ w ns, ∃ w' calls,
       deliver rh ns w = Ok tt w'
       ∧ trace w' = trace w ++ calls
       ∧ no_repeat (lastEventId w) (ev_id <$> received calls)).
Proof.
  split; [exact (λ w n, notification_step n w)|].
  intros w ns. revert w. induction ns as [|n ns IH]; intros w.
  - exists w, []. by rewrite app_nil_r.
  - unfold deliver. cbn [forEach]. fold (deliver rh ns).
    destruct (notification_step n w) as (w1 & calls1 & Hrun & Htrace & Hcases).
    unfold bind. rewrite Hrun.
    destruct (IH w1) as (w2 & calls2 & Hrun2 & Htrace2 & Hrep).
    exists w2, (calls1 ++ calls2). split; [done|].
    split; [by rewrite Htrace2, Htrace, app_assoc|].
    rewrite received_app, fmap_app.
    destruct Hcases as [(e & _ & Hnew & -> & Hlast)|(_ & -> & Hlast)].
    + cbn. rewrite received_invocations. cbn. split; [done|].
      by rewrite <- Hlast.
    + cbn. by rewrite <- Hlast.
Qed.

End Bus.

Lemma faulty_dispatch_run :
  returned (handleIncomingEvent faulty stop_event listening) = Some tt
  ∧ app (final (handleIncomingEvent faulty stop_event listening)) = [0; 1; 2]%nat.
Proof. vm_compute. done. Qed.

Lemma handler_errors_isolated_witness :
  ∃ w', handleIncomingEvent faulty stop_event listening = Ok tt w'
        ∧ trace w' = trace listening
                     ++ Received stop_event :: invocations [0; 1; 2]%nat stop_event
        ∧ (∀ h, h ∈ [0; 1; 2]%nat →
             Invoked h (ev_data stop_event) stop_event ∈ trace w')
        ∧ app w' = handled faulty [0; 1; 2]%nat stop_event (app listening).
Proof.
  apply (proj2 (handler_errors_isolated faulty) listening stop_event [0; 1; 2]%nat).
  - vm_compute. reflexivity.
  - discriminate.
Defined.

Lemma stale_event_not_dispatched_witness :
  ∃ w' calls,
    startListening_value quiet (Some [("event_1000_k3j9x0qza", stop_event)]) 7000
      (client true ∅ ∅ [])
    = Ok tt w'
    ∧ trace w' = trace (client true ∅ ∅ []) ++ calls
    ∧ ∀ c, c ∈ calls → call_event c ≠ Some stop_event.
Proof.
  destruct (stale_event_not_dispatched quiet (client true ∅ ∅ [])
              (Some [("event_1000_k3j9x0qza", stop_event)]) 7000)
    as (w' & calls & Hrun & Htrace & _ & Hstale).
  exists w', calls. split; [exact Hrun|]. split; [exact Htrace|].
  apply Hstale. cbn. lia.
Defined.

Lemma superseded_event_run :
  dispatches (ev_id stop_event)
    (trace (final (deliver quiet
                     [mkNotification
                        (Some [("event_1000_k3j9x0qza", stop_event);
                               ("event_2000_8fh2m1xcv", start_event)]) 3000]
                     (client true ∅ ∅ []))))
  = 0%nat.
Proof. vm_compute. reflexivity. Qed.

(** An identifier is dispatched again when another one was dispatched in
    between. *)
Lemma redelivered_after_another_run :
  dispatches (ev_id stop_event)
    (trace (final (deliver quiet
                     [mkNotification (Some [("a", stop_event)]) 3000;
                      mkNotification (Some [("b", start_event)]) 3100;
                      mkNotification (Some [("a", stop_event)]) 3200]
                     (client true ∅ ∅ []))))
  = 2%nat.
Proof. vm_compute. reflexivity. Qed.

(** C3, as the specification states it, fails: of two fresh events in one
    notification only the later one is dispatched, the other never is. *)
Lemma dispatched_exactly_once_fails :
  ¬ dispatched_exactly_once (quiet (X:=json) (Y:=Event)).
Proof.
  intros H.
  specialize (H (client true ∅ ∅ [])
                [mkNotification
                   (Some [("event_1000_k3j9x0qza", stop_event);
                          ("event_2000_8fh2m1xcv", start_event)]) 3000]
                (mkNotification
                   (Some [("event_1000_k3j9x0qza", stop_event);
                          ("event_2000_8fh2m1xcv", start_event)]) 3000)
                stop_event).
  rewrite superseded_event_run in H. discriminate H.
  - reflexivity.
  - reflexivity.
  - by left.
  - eexists. split; [reflexivity|]. split; [by left|]. cbn. lia.
Qed.

Lemma dispatch_deduplicates_against_last_witness :
  ∃ w' calls,
    deliver quiet
      [mkNotification (Some [("a", stop_event)]) 3000;
       mkNotification (Some [("a", stop_event)]) 4000]
      (client true ∅ ∅ [])
    = Ok tt w'
    ∧ trace w' = trace (client true ∅ ∅ []) ++ calls
    ∧ no_repeat (lastEventId (client true ∅ ∅ [])) (ev_id <$> received calls).
Proof.
  exact (proj2 (dispatch_deduplicates_against_last quiet) (client true ∅ ∅ [])
           [mkNotification (Some [("a", stop_event)]) 3000;
            mkNotification (Some [("a", stop_event)]) 4000]).
Defined.

(** ** The state manager *)

Section Objects.

Lemma obj_get_set k k' v o :
  obj_get k (obj_set k' v o)
  = if String.eqb k k' then Some v else obj_get k o.
Proof.
  induction o as [|[k0 v0] o IH]; cbn; [done|].
  destruct (String.eqb_spec k' k0) as [->|Hne]; cbn.
  - by destruct (String.eqb k k0).
  - rewrite IH. destruct (String.eqb_spec k k0) as [->|_]; [|done].
    destruct (String.eqb_spec k0 k'); [by subst|done].
Qed.

Lemma obj_get_app k o1 o2 :
  obj_get k (o1 ++ o2)
  = match obj_get k o1 with
    | Some v => Some v
    | None => obj_get k o2
    end.
Proof.
  induction o1 as [|[k0 v0] o1 IH]; cbn; [done|].
  by destruct (String.eqb k k0).
Qed.

(** After [{...target, ...src}] a key has the value [src] gives it last,
    and the value it had in [target] when [src] does not have it. *)
Lemma obj_get_assign k target src :
  obj_get k (assign target src)
  = match obj_last k src with
    | Some v => Some v
    | None => obj_get k target
    end.
Proof.
  revert target. unfold assign, obj_last.
  induction src as [|[k' v'] src IH]; intros target; cbn [fold_left]; [done|].
  rewrite IH, reverse_cons, obj_get_app. cbn [fst snd].
  destruct (obj_get k (reverse src)); [done|].
  rewrite obj_get_set. cbn. by destruct (String.eqb k k').
Qed.

Lemma obj_last_None k o : obj_last k o = None ↔ obj_get k o = None.
Proof.
  unfold obj_last. induction o as [|[k0 v0] o IH]; [done|].
  rewrite reverse_cons, obj_get_app. cbn.
  destruct (String.eqb k k0).
  - split; [|done]. by destruct (obj_get k (reverse o)).
  - rewrite <- IH. by destruct (obj_get k (reverse o)).
Qed.

(** On a list without a repeated key, as the properties of an object are,
    the last binding of a key is its only one. *)
Lemma obj_last_get k o : NoDup o.*1 → obj_last k o = obj_get k o.
Proof.
  unfold obj_last. induction o as [|[k0 v0] o IH]; [done|].
  intros Hnd. apply NoDup_cons in Hnd as [Hk0 Hnd].
  rewrite reverse_cons, obj_get_app, IH by done. cbn.
  destruct (String.eqb_spec k k0) as [->|_]; [|by destruct (obj_get k o)].
  assert (obj_get k0 o = None) as ->; [|done].
  clear -Hk0. induction o as [|[k1 v1] o IH]; [done|]. cbn in *.
  apply not_elem_of_cons in Hk0 as [Hne Hk0].
  destruct (String.eqb_spec k0 k1); [done|by apply IH].
Qed.

End Objects.

Section Manager.

Context {App : Type}.
Variable rs : Handler → json → json → App → outcome App.
Implicit Types (w : World App).

Lemma updateState_safe newState broadcast t : safe (updateState rs newState broadcast t).
Proof. open_client. step_through. Qed.

(** Only the merge changes the canonical state. *)
Lemma updateState_state newState broadcast t w :
  state (final (updateState rs newState broadcast t w))
  = spread2 (state w) newState.
Proof.
  unfold updateState. rewrite final_bind. cbn [gets]. rewrite final_bind.
  cbn [modify].
  match goal with
  | |- state (final (?m ?w1)) = _ =>
      assert (Hkeep : keeps state m);
      [open_client; step_through; try leaf|by rewrite Hkeep]
  end.
Qed.

(** C2: [updateState] returns and merges key by key: a key of [partial]
    takes the value [partial] gives it, any other key keeps its value; so
    [updateState({status: 'rolling', currentPrize: P})] followed by
    [updateState({currentWinner: W})] leaves [status] at ['rolling'],
    [currentPrize] at [P] and [currentWinner] at [W], whatever the state
    before, the connectivity and the callbacks. *)
Theorem updateState_merges :
  (∀ w partial broadcast t,
     let w' := final (updateState rs partial broadcast t w) in
     let props := from_option own_props [] partial in
     returned (updateState rs partial broadcast t w) = Some tt
     ∧ (∀ k v, obj_last k props = Some v → obj_get k (state w') = Some v)
     ∧ (∀ k, obj_get k props = None → obj_get k (state w') = obj_get k (state w)))
  ∧ (∀ w P W b1 t1 b2 t2,
       let w1 :=
         final (updateState rs
                  (Some (JObj [("status", JStr "rolling"); ("currentPrize", P)]))
                  b1 t1 w) in
       let w2 := final (updateState rs (Some (JObj [("currentWinner", W)])) b2 t2 w1) in
       obj_get "status" (state w2) = Some (JStr "rolling")
       ∧ obj_get "currentPrize" (state w2) = Some P
       ∧ obj_get "currentWinner" (state w2) = Some W).
Proof.
  split.
  - intros w partial broadcast t w' props. subst w'.
    rewrite updateState_state. unfold spread2. fold props.
    split; [by destruct (updateState_safe partial broadcast t w) as [[] ->]|].
    split.
    + intros k v Hk. by rewrite obj_get_assign, Hk.
    + intros k Hk. apply obj_last_None in Hk. by rewrite obj_get_assign, Hk.
  - intros w P W b1 t1 b2 t2 w1 w2. subst w1 w2.
    rewrite !updateState_state. unfold spread2. cbn [from_option own_props].
    rewrite !obj_get_assign. by cbn.
Qed.

End Manager.

Lemma updateState_merges_witness :
  let w := client true ∅ ∅ [] in
  let w' := final (updateState quiet (Some (JObj [("status", JStr "rolling")])) true noon w) in
  obj_get "status" (state w') = Some (JStr "rolling")
  ∧ obj_get "winners" (state w') = obj_get "winners" (state w).
Proof.
  destruct (proj1 (updateState_merges quiet) (client true ∅ ∅ [])
              (Some (JObj [("status", JStr "rolling")])) true noon)
    as (_ & Hpresent & Habsent).
  split.
  - apply Hpresent. reflexivity.
  - apply Habsent. reflexivity.
Defined.

(** * Further properties of the code *)

(** ** The adapter *)

Section AdapterMore.

Context {App : Type}.
Variable rc : Handler → bool → bool → App → outcome App.
Implicit Types (w : World App) (path key : string) (data v : json).


(** X2: [getData] never throws and never writes to the remote store; it
    returns the value of the remote store when the client is online, the
    read is accepted and the value is not [null], and the cached value in
    every other case; the only change it makes to the cache is to store the
    value it returns at the key of [path]. *)
Theorem getData_effects w path :
  let r := getData path w in
  returned r
  = Some (if online w && negb (next_rejected w) && not_null (remote path w)
          then remote path w else cached path w)
  ∧ cloud (final r) = cloud w
  ∧ (∀ key, key ≠ localKey path →
       localStorage (final r) !! key = localStorage w !! key)
  ∧ (localStorage (final r) !! localKey path = localStorage w !! localKey path
     ∨ localStorage (final r) !! localKey path = returned r).
Proof.
  cbv zeta. unfold remote, cached.
  destruct (online w) eqn:Hon; [destruct (next_rejected w) eqn:Hrej|]; cbn [andb negb].
  - rewrite getData_rejected by done. cbn. auto.
  - destruct (not_null (default JNull (cloud w !! path))) eqn:Hv.
    + rewrite getData_value by done. cbn. rewrite lookup_insert_eq.
      do 2 (split; [done|]).
      split; [intros key Hkey; by rewrite lookup_insert_ne|by right].
    + rewrite getData_null by (by try destruct (default JNull (cloud w !! path))).
      cbn. auto.
  - rewrite getData_offline by done. cbn. auto.
Qed.

Lemma setupConnectionMonitoring_value_keeps_cache val :
  keeps localStorage (setupConnectionMonitoring_value rc val).
Proof.
  unfold setupConnectionMonitoring_value. open_client. step_through; try leaf.
Qed.

(** X3: the value an online read returns is the one the client reads once
    it has gone offline: a non-null remote value read by [getData] is
    returned again by [getData] after [.info/connected] has reported a
    disconnection. *)
Theorem read_survives_disconnection w path val :
  online w = true → next_rejected w = false →
  not_null (remote path w) = true → is_true val = false →
  returned (getData path
              (final (setupConnectionMonitoring_value rc val
                        (final (getData path w)))))
  = Some (remote path w)
  ∧ returned (getData path w) = Some (remote path w).
Proof.
  intros Hon Hacc Hv Hval. unfold remote in *.
  rewrite (getData_value path w) by done. cbn [final returned].
  set (w1 := set_localStorage _ _). split; [|done].
  pose proof (setupConnectionMonitoring_value_flags rc val w1) as Hflags.
  pose proof (setupConnectionMonitoring_value_keeps_cache val w1) as Hcache.
  set (w2 := final _) in *.
  destruct (flags_inv _ _ _ Hflags) as [Hc Hl].
  rewrite getData_offline by (unfold online; by rewrite Hc, Hval).
  cbn [returned]. rewrite Hcache. subst w1. cbn. by rewrite lookup_insert_eq.
Qed.

End AdapterMore.

Lemma read_survives_disconnection_witness :
  let w := client true ∅ {["prizes" := JArr [JStr "car"]]} [] in
  returned (getData "prizes"
              (final (setupConnectionMonitoring_value quiet (JBool false)
                        (final (getData "prizes" w)))))
  = Some (remote "prizes" w)
  ∧ returned (getData "prizes" w) = Some (remote "prizes" w).
Proof.
  apply (read_survives_disconnection quiet
           (client true ∅ {["prizes" := JArr [JStr "car"]]} []) "prizes" (JBool false));
    vm_compute; reflexivity.
Defined.

(** ** Local keys *)

Lemma replace_slashes_injective p q :
  (no_underscore p = true ∧ no_underscore q = true)
  ∨ (no_slash p = true ∧ no_slash q = true) →
  replace_slashes p = replace_slashes q → p = q.
Proof.
  revert q. induction p as [|c p IH]; intros [|d q] Hfree Heq; try done.
  cbn in Heq. injection Heq as Hc Hq.
  assert (c = d) as ->.
  { destruct Hfree as [[Hp Hq']|[Hp Hq']]; cbn in Hp, Hq';
      apply andb_true_iff in Hp as [Hc' _];
      apply andb_true_iff in Hq' as [Hd' _];
      destruct (Ascii.eqb_spec c "/"%char) as [->|?];
      destruct (Ascii.eqb_spec d "/"%char) as [->|?]; try done;
      subst; done. }
  f_equal. apply IH; [|done].
  destruct Hfree as [[Hp Hq']|[Hp Hq']]; cbn in Hp, Hq';
    apply andb_true_iff in Hp as [_ Hp];
    apply andb_true_iff in Hq' as [_ Hq'']; auto.
Qed.

(** X4: two paths share a cache entry only when one has a slash where the
    other has an underscore: distinct paths without underscore, and distinct
    paths without slash, have distinct local keys. *)
Theorem localKey_injective p q :
  (no_underscore p = true ∧ no_underscore q = true)
  ∨ (no_slash p = true ∧ no_slash q = true) →
  p ≠ q → localKey p ≠ localKey q.
Proof.
  intros Hfree Hne Hkey. apply Hne. unfold localKey in Hkey. cbn in Hkey.
  injection Hkey as Hkey. by apply replace_slashes_injective.
Qed.

Lemma localKey_injective_witness : localKey "winners" ≠ localKey "bonusSettings".
Proof.
  apply (localKey_injective "winners" "bonusSettings").
  - left. split; reflexivity.
  - discriminate.
Defined.

(** ** The latest event *)

Section Latest.

Implicit Types (e a : Event) (l : list Event).

Lemma insert_desc_perm e l : insert_desc e l ≡ₚ e :: l.
Proof.
  induction l as [|x l IH]; cbn; [done|].
  destruct (ev_timestamp x <=? ev_timestamp e)%Z; [done|].
  by rewrite IH, Permutation_swap.
Qed.

Lemma insert_desc_sorted e l :
  StronglySorted newer_first l → StronglySorted newer_first (insert_desc e l).
Proof.
  induction 1 as [|x l Hl IH Hx]; cbn.
  - repeat constructor.
  - destruct (Z.leb_spec (ev_timestamp x) (ev_timestamp e)) as [Hle|Hlt].
    + constructor; [by constructor|].
      constructor; [exact Hle|].
      eapply Forall_impl; [exact Hx|]. unfold newer_first. intros y Hy. lia.
    + constructor; [done|].
      rewrite insert_desc_perm. constructor; [unfold newer_first; lia|done].
Qed.

(** X5: the order the listener of [onEvent] puts the events in is a
    rearrangement of the collection in which no event comes before one
    with a later timestamp. *)
Theorem sort_desc_sorted_permutation l :
  sort_desc l ≡ₚ l ∧ StronglySorted newer_first (sort_desc l).
Proof.
  induction l as [|a l [IHp IHs]]; [by split; [|constructor]|].
  cbn [sort_desc foldr]. fold (sort_desc l). split.
  - by rewrite insert_desc_perm, IHp.
  - by apply insert_desc_sorted.
Qed.

(** X6: the event the listener picks is the first one of the collection
    among those with the greatest timestamp: every event before it is
    strictly older, no event after it is newer; and an empty collection
    gives none. *)
Theorem latest_is_first_newest l e :
  (head (sort_desc l) = Some e
   ↔ ∃ l1 l2, l = l1 ++ e :: l2
              ∧ Forall (λ x, (ev_timestamp x < ev_timestamp e)%Z) l1
              ∧ Forall (λ x, (ev_timestamp x ≤ ev_timestamp e)%Z) l2)
  ∧ (head (sort_desc l) = None ↔ l = []).
Proof.
  split.
  - rewrite head_sort_desc_latest. by unfold is_latest.
  - destruct l as [|a l]; [done|]. split; [|done].
    cbn [sort_desc foldr]. fold (sort_desc l). by rewrite insert_desc_head.
Qed.

End Latest.

(** ** Connectivity, further *)

Section ConnectivityMore.

Context {App : Type}.
Variable rh : Handler → json → Event → App → outcome App.
Variable rc : Handler → bool → bool → App → outcome App.
Variable rs : Handler → json → json → App → outcome App.
Implicit Types (w : World App).

Lemma bind_run {A B} (m : M App A) (k : A → M App B) w a w' :
  m w = Ok a w' → bind m k w = k a w'.
Proof. unfold bind. by intros ->. Qed.

Lemma syncLocalToCloud_safe : safe (App:=App) syncLocalToCloud.
Proof. open_client. step_through. Qed.

Lemma online_guard w :
  negb (isConnected w) || localMode w = negb (online w).
Proof. unfold online. by destruct (isConnected w), (localMode w). Qed.

(** X7: [syncLocalToCloud] never throws and never writes to the cache;
    offline it does nothing at all; and when the first request it makes is
    rejected it gives up: the pushes that would have followed are not
    attempted and the remote store is left as it was. *)
Theorem syncLocalToCloud_gives_up :
  (∀ w, returned (syncLocalToCloud w) = Some tt
        ∧ localStorage (final (syncLocalToCloud w)) = localStorage w)
  ∧ (∀ w, online w = false → syncLocalToCloud w = Ok tt w)
  ∧ (∀ w, next_rejected w = true →
          cloud (final (syncLocalToCloud w)) = cloud w).
Proof.
  split; [|split].
  - intros w. split.
    + by destruct (syncLocalToCloud_safe w) as [[] ->].
    + assert (Hkeep : keeps (App:=App) localStorage syncLocalToCloud)
        by (open_client; step_through; leaf).
      apply Hkeep.
  - intros w Hoff. unfold syncLocalToCloud. unfold bind at 1. cbn [gets id].
    by rewrite online_guard, Hoff.
  - intros w Hrej. unfold syncLocalToCloud. unfold bind at 1. cbn [gets id].
    destruct (negb (isConnected w) || localMode w); [done|].
    unfold try_catch.
    unfold bind at 1. rewrite loadFromLocal_run.
    destruct (truthy (default JNull (localStorage w !! localKey "employees"))).
    { unfold bind at 1. by rewrite db_set_rejected. }
    unfold bind at 1. cbn [ret].
    unfold bind at 1. rewrite loadFromLocal_run.
    destruct (truthy (default JNull (localStorage w !! localKey "prizes"))).
    { unfold bind at 1. by rewrite db_set_rejected. }
    unfold bind at 1. cbn [ret].
    unfold bind at 1. rewrite loadFromLocal_run.
    destruct (truthy (default JNull (localStorage w !! localKey "lotteryState"))).
    { by rewrite db_set_rejected. }
    done.
Qed.

(** What an operation leaves of the remote store and of the script of its
    answers. *)
Lemma triggerStateCallbacks_keeps {X} (f : World App → X) newState oldState :
  (∀ a c w, f (set_app a c w) = f w) →
  keeps f (triggerStateCallbacks rs newState oldState).
Proof.
  intros Hf. open_client; step_through.
  intros w. cbv zeta. destruct (rs _ _ _ _); apply Hf.
Qed.

Lemma sendEvent_offline eventType eventData t w :
  online w = false →
  ∃ ls, sendEvent eventType eventData t w = Ok true (set_localStorage ls w).
Proof.
  intros Hoff. unfold sendEvent. rewrite setData_offline by done. by eexists.
Qed.

(** X8: while the client is offline, no operation other than the arrival of
    a value of [.info/connected] makes a request to the remote store: the
    store and the script of its answers are left as they were, and the
    client stays offline. *)
Theorem offline_makes_no_request w op :
  online w = false → (∀ val, op ≠ ConnectedValue val) →
  let w' := final (perform rh rc rs op w) in
  cloud w' = cloud w ∧ rejections w' = rejections w ∧ online w' = false.
Proof.
  intros Hoff Hop. cbv zeta.
  destruct op as [val|path data|path|eventType eventData t|n|eventType handler
                 |eventType handler|callback|newState broadcast t];
    [by destruct (Hop val)| | | | | | | |]; cbn [perform].
  - rewrite final_bind, setData_offline by done. by cbn.
  - rewrite final_bind, getData_offline by done. by cbn.
  - rewrite final_bind. unfold broadcastEvent, try_catch.
    destruct (sendEvent_offline eventType eventData t w Hoff) as [ls Hsend].
    rewrite (bind_run _ _ _ _ _ Hsend). by cbn.
  - assert (Hkeep : keeps (λ w, (cloud w, rejections w, online w))
                      (startListening_value rh (snapshot n) (at_time n)))
      by (open_client; step_through; leaf).
    specialize (Hkeep w). injection Hkeep as -> -> ->. done.
  - by cbn.
  - unfold off, modify. cbn. by destruct (eventHandlers w !! eventType).
  - by cbn.
  - unfold updateState. rewrite final_bind. cbn [gets]. rewrite final_bind.
    cbn [modify]. set (w1 := set_state _ w).
    assert (Hoff1 : online w1 = false) by done.
    rewrite final_bind. cbn [gets state]. rewrite final_bind.
    rewrite (setData_offline _ _ w1) by done.
    set (w2 := set_localStorage _ w1).
    rewrite final_bind.
    assert (∃ ls,
              (if broadcast
               then let* merged := gets state in
                    LotteryEvents_updateState (JObj merged) t;; ret ()
               else ret ()) w2 = Ok tt (set_localStorage ls w2)) as [ls ->].
    { destruct broadcast.
      - unfold bind at 1. cbn [gets]. unfold LotteryEvents_updateState.
        unfold broadcastEvent, try_catch.
        destruct (sendEvent_offline EVENT_TYPES.STATE_CHANGED
                    (JObj [("state", JObj (state w2));
                           ("timestamp", JNum (payload_now t))]) t w2)
          as [ls Hsend]; [done|].
        unfold bind at 1. rewrite (bind_run _ _ _ _ _ Hsend). by exists ls.
      - exists (localStorage w2). by destruct w2. }
    rewrite final_bind. cbn [gets].
    set (w3 := set_localStorage ls w2).
    set (w4 := final _).
    assert (Hkeep : (cloud w4, rejections w4, online w4)
                    = (cloud w3, rejections w3, online w3)).
    { exact (triggerStateCallbacks_keeps (λ w, (cloud w, rejections w, online w))
               _ _ (λ _ _ _, eq_refl) w3). }
    by injection Hkeep as -> -> ->.
Qed.

End ConnectivityMore.

Lemma offline_makes_no_request_witness :
  let w := client false ∅ ∅ [true] in
  let w' := final (perform quiet quiet quiet
                     (UpdateState (Some (JObj [("status", JStr "rolling")])) true noon) w) in
  cloud w' = cloud w ∧ rejections w' = rejections w ∧ online w' = false.
Proof.
  apply (offline_makes_no_request quiet quiet quiet (client false ∅ ∅ [true])
           (UpdateState (Some (JObj [("status", JStr "rolling")])) true noon)).
  - vm_compute. reflexivity.
  - discriminate.
Defined.

Section ConnectionCallbacks.

Context {App : Type}.
Variable rc : Handler → bool → bool → App → outcome App.
Implicit Types (w : World App).

Lemma connection_callbacks_run cbs connected w :
  forEach cbs (λ cb,
    try_catch
      (λ w, let c := ConnectionCallback cb connected (localMode w) in
            match rc cb connected (localMode w) (app w) with
            | Returns a => Ok tt (set_app a c w)
            | Throws a => Raise CallbackThrew (set_app a c w)
            end)
      (λ _, ret tt)) w
  = Ok tt (after_calls (notified rc cbs connected (localMode w) (app w))
             (connection_calls cbs connected (localMode w)) w).
Proof.
  revert w. induction cbs as [|cb cbs IH]; intros w.
  - cbn. by rewrite after_calls_nil.
  - cbn [forEach]. unfold bind at 1, try_catch at 1. cbv zeta.
    destruct (rc cb connected (localMode w) (app w)) as [a|a] eqn:Hrun;
      (cbn [ret]; rewrite IH; f_equal;
       unfold after_calls, set_app, notified, connection_calls; cbn;
       rewrite Hrun; cbn; by rewrite <- app_assoc).
Qed.

Lemma triggerConnectionCallbacks_run connected w :
  triggerConnectionCallbacks rc connected w
  = Ok tt (after_calls
             (notified rc (connectionCallbacks w) connected (localMode w) (app w))
             (connection_calls (connectionCallbacks w) connected (localMode w)) w).
Proof.
  unfold triggerConnectionCallbacks. unfold bind. cbn [gets].
  apply connection_callbacks_run.
Qed.

(** X9: on a value of [.info/connected] every callback registered with
    [onConnectionChange] is called once, in the order of registration,
    whichever of them throw, with the connectivity just read and the local
    mode already updated to its negation; nothing else is added to the
    trace. *)
Theorem connection_callbacks_notified w val :
  let w' := final (setupConnectionMonitoring_value rc val w) in
  trace w'
  = trace w ++ connection_calls (connectionCallbacks w) (is_true val)
                 (negb (is_true val))
  ∧ app w'
    = notified rc (connectionCallbacks w) (is_true val) (negb (is_true val)) (app w).
Proof.
  cbv zeta.
  assert (∃ w2, final (setupConnectionMonitoring_value rc val w)
                = after_calls
                    (notified rc (connectionCallbacks w2) (is_true val)
                       (negb (is_true val)) (app w2))
                    (connection_calls (connectionCallbacks w2) (is_true val)
                       (negb (is_true val))) w2
                ∧ trace w2 = trace w ∧ app w2 = app w
                ∧ connectionCallbacks w2 = connectionCallbacks w)
    as (w2 & -> & Htr & Happ & Hcbs).
  { unfold setupConnectionMonitoring_value.
    rewrite final_bind. cbn [modify]. rewrite final_bind.
    cbn [gets isConnected set_flags]. rewrite final_bind.
    assert (Hsync : keeps (App:=App)
                      (λ w, (trace w, app w, connectionCallbacks w, flags w))
                      syncLocalToCloud)
      by (open_client; step_through; leaf).
    destruct (is_true val); cbn [negb].
    - unfold bind at 1. cbn [modify].
      set (w1 := set_flags _ false _).
      specialize (Hsync w1).
      destruct (syncLocalToCloud_safe w1) as [[] Hr].
      destruct (syncLocalToCloud w1) as [[] w2|e w2]; [|done].
      cbn [final] in Hsync. injection Hsync as Htr Happ Hcbs Hc Hl.
      rewrite final_bind. cbn [gets]. rewrite triggerConnectionCallbacks_run.
      cbn [final]. exists w2. by rewrite Hc, Hl.
    - cbn [modify]. rewrite final_bind. cbn [gets].
      rewrite triggerConnectionCallbacks_run. cbn [final]. by eexists. }
  cbn [trace app after_calls]. by rewrite Htr, Happ, Hcbs.
Qed.

End ConnectionCallbacks.

(** ** The event bus, further *)

Section BusMore.

Context {App : Type}.
Variable rh : Handler → json → Event → App → outcome App.
Implicit Types (w : World App) (e : Event) (h : Handler) (t : string).

Lemma registered_on t h t' w :
  registered t' (final (on t h w))
  = if decide (t' = t) then registered t w ++ [h] else registered t' w.
Proof.
  unfold registered, on, modify. cbn. case_decide as Ht.
  - subst. by rewrite lookup_insert_eq.
  - by rewrite lookup_insert_ne.
Qed.

Lemma registered_off t h t' w :
  registered t' (final (off t h w))
  = if decide (t' = t) then remove_first h (registered t w) else registered t' w.
Proof.
  unfold registered, off, modify. cbn.
  destruct (eventHandlers w !! t) as [handlers|] eqn:Hreg; cbn.
  - case_decide as Ht.
    + subst. by rewrite lookup_insert_eq.
    + by rewrite lookup_insert_ne.
  - case_decide as Ht; [|done]. subst. by rewrite Hreg.
Qed.

Lemma remove_first_app_new h handlers :
  h ∉ handlers → remove_first h (handlers ++ [h]) = handlers.
Proof.
  induction handlers as [|x handlers IH]; intros Hnew; cbn.
  - by rewrite decide_True.
  - apply not_elem_of_cons in Hnew as [Hne Hnew].
    rewrite decide_False by done. by rewrite IH.
Qed.

Lemma registrations_remove_first h h' handlers :
  registrations h' (remove_first h handlers)
  = if decide (h' = h) then pred (registrations h handlers)
    else registrations h' handlers.
Proof.
  unfold registrations. induction handlers as [|x handlers IH]; cbn [remove_first].
  - by case_decide.
  - destruct (decide (x = h)) as [->|Hx].
    + rewrite !filter_cons. destruct (decide (h' = h)) as [->|Hh].
      * by rewrite decide_True.
      * by rewrite decide_False by congruence.
    + rewrite !filter_cons.
      destruct (decide (x = h')) as [->|Hx']; cbn [length]; rewrite IH.
      * by rewrite !decide_False by congruence.
      * destruct (decide (h' = h)) as [->|Hh]; [|done].
        by rewrite decide_False.
Qed.

Lemma remove_first_sublist h handlers : remove_first h handlers `sublist_of` handlers.
Proof.
  induction handlers as [|x handlers IH]; cbn; [done|].
  case_decide; [by apply sublist_cons|by apply sublist_skip].
Qed.

(** X10: [off] takes away one registration of the handler, the first, and
    nothing else: the number of registrations of the handler for the type
    goes down by one (it stays at zero for a handler that is not
    registered), every other count is as before and the handlers left keep
    their order, so a handler registered twice is still called after one
    [off]; and [off] after [on] of a handler that was not registered gives
    back the registrations there were. *)
Theorem off_removes_one_registration w t h :
  (∀ t' h',
     registrations h' (registered t' (final (off t h w)))
     = if decide (t' = t ∧ h' = h) then pred (registrations h (registered t w))
       else registrations h' (registered t' w))
  ∧ registered t (final (off t h w)) `sublist_of` registered t w
  ∧ (h ∉ registered t w →
     registered t (final (off t h (final (on t h w)))) = registered t w).
Proof.
  split; [|split].
  - intros t' h'. rewrite registered_off. destruct (decide (t' = t)) as [->|Ht].
    + rewrite registrations_remove_first.
      destruct (decide (h' = h)) as [->|Hh].
      * by rewrite decide_True.
      * rewrite decide_False; [done|]. by intros [_ ?].
    + rewrite decide_False; [done|]. by intros [? _].
  - rewrite registered_off, decide_True by done. apply remove_first_sublist.
  - intros Hnew. rewrite registered_off, decide_True by done.
    rewrite registered_on, decide_True by done.
    by apply remove_first_app_new.
Qed.

Lemma lastEventId_handled e w :
  lastEventId (final (handleIncomingEvent rh e w)) = Some (ev_id e).
Proof.
  destruct (decide (Some (ev_id e) = lastEventId w)) as [Hdup|Hnew].
  - by rewrite handleIncomingEvent_duplicate.
  - by rewrite handleIncomingEvent_new.
Qed.

(** X11: an event is marked as seen even when no handler is registered for
    its type, so a handler registered afterwards never gets it: once
    [handleIncomingEvent] has received an event, registering a handler and
    delivering the same event again calls nothing and changes nothing. *)
Theorem event_before_registration_is_lost w e t h :
  let w1 := final (handleIncomingEvent rh e w) in
  let w2 := final (on t h w1) in
  handleIncomingEvent rh e w2 = Ok tt w2
  ∧ (eventHandlers w !! ev_type e = None → Some (ev_id e) ≠ lastEventId w →
     trace w2 = trace w ++ [Received e]).
Proof.
  cbv zeta. split.
  - apply handleIncomingEvent_duplicate. symmetry.
    exact (lastEventId_handled e w).
  - intros Hnone Hnew. rewrite handleIncomingEvent_new by done.
    rewrite Hnone. by cbn.
Qed.

End BusMore.

(** ** Event identifiers and the keys of events *)

Section EventIds.

Context {App : Type}.
Implicit Types (w : World App).

Lemma pretty_N_go_no_underscore x s :
  no_underscore s = true → no_underscore (pretty_N_go x s) = true.
Proof.
  revert s. induction (N.lt_wf_0 x) as [x _ IH]; intros s Hs.
  assert (x = 0 ∨ 0 < x)%N as [->|?] by lia.
  - by rewrite pretty_N_go_0.
  - rewrite pretty_N_go_step by done. apply IH.
    { by apply N.div_lt. }
    cbn. rewrite Hs. unfold pretty_N_char. by repeat case_match.
Qed.

Lemma pretty_Z_no_underscore (z : Z) : no_underscore (pretty z) = true.
Proof.
  assert (HN : ∀ n : N, no_underscore (pretty n) = true).
  { intros n. unfold pretty, pretty_N. case_decide; [done|].
    by apply pretty_N_go_no_underscore. }
  destruct z as [|x|x]; [done|apply (HN (N.pos x))|].
  unfold pretty, pretty_Z. cbn. apply (HN (N.pos x)).
Qed.

Lemma append_nil (s : string) : "" +:+ s = s.
Proof. reflexivity. Qed.

Lemma append_cons c (a s : string) : String c a +:+ s = String c (a +:+ s).
Proof. reflexivity. Qed.

Lemma underscore_splits a a' r r' :
  no_underscore a = true → no_underscore a' = true →
  a +:+ String "_" r = a' +:+ String "_" r' → a = a' ∧ r = r'.
Proof.
  revert a'. induction a as [|c a IH]; intros [|c' a'] Ha Ha' Heq;
    rewrite ?append_nil, ?append_cons in Heq; cbn in Ha, Ha'.
  - by injection Heq as ->.
  - injection Heq as <- _. done.
  - injection Heq as -> _. done.
  - injection Heq as -> Heq.
    apply andb_true_iff in Ha as [_ Ha]. apply andb_true_iff in Ha' as [_ Ha'].
    by destruct (IH a' Ha Ha' Heq) as [-> ->].
Qed.

(** X12: two events get the same identifier only when both readings agree:
    identifiers made at different times, or with different random suffixes,
    are different, and so are the paths of the events. *)
Theorem generateEventId_injective now random now' random' :
  now ≠ now' ∨ random ≠ random' →
  generateEventId now random ≠ generateEventId now' random'
  ∧ "events/" +:+ generateEventId now random
    ≠ "events/" +:+ generateEventId now' random'.
Proof.
  intros Hne.
  assert (Hid : generateEventId now random ≠ generateEventId now' random').
  { intros Heq. unfold generateEventId in Heq.
    rewrite !append_cons, !append_nil in Heq. injection Heq as Heq.
    apply underscore_splits in Heq as [Hnow ->];
      [|apply pretty_Z_no_underscore..].
    apply (inj pretty) in Hnow. destruct Hne; congruence. }
  split; [done|]. intros Heq.
  apply Hid. rewrite !append_cons, !append_nil in Heq. congruence.
Qed.

Lemma setData_localStorage path data w :
  localStorage (final (setData path data w))
  = <[localKey path := data]> (localStorage w).
Proof.
  destruct (online w) eqn:Hon; [destruct (next_rejected w) eqn:Hrej|].
  - rewrite setData_rejected by done. cbn. by rewrite insert_insert_eq.
  - by rewrite setData_accepted.
  - by rewrite setData_offline.
Qed.

(** X13: a broadcast always leaves the event in the cache, under the key of
    its own path, and never under the key of the [events] collection: what
    the local poll of the collection reads is the same before and after. *)
Theorem sendEvent_cache w eventType eventData t :
  let event :=
    mkEvent eventType eventData (event_now t)
      (generateEventId (id_now t) (id_random t)) in
  let w' := final (sendEvent eventType eventData t w) in
  localStorage w' !! localKey ("events/" +:+ ev_id event) = Some (event_json event)
  ∧ cached "events" w' = cached "events" w
  ∧ returned (loadFromLocal "events" w') = returned (loadFromLocal "events" w).
Proof.
  cbv zeta. unfold sendEvent, cached. rewrite !loadFromLocal_run.
  rewrite !setData_localStorage. cbn [returned ev_id].
  assert (Hkey : localKey ("events/" +:+ generateEventId (id_now t) (id_random t))
                 ≠ localKey "events").
  { unfold localKey. rewrite !append_cons, !append_nil. cbn [replace_slashes].
    intros Heq. injection Heq as Heq. discriminate. }
  rewrite lookup_insert_eq, lookup_insert_ne by done. by repeat split.
Qed.

End EventIds.

Lemma generateEventId_injective_witness :
  generateEventId 1000 "k3j9x0qza" ≠ generateEventId 1000 "8fh2m1xcv"
  ∧ "events/" +:+ generateEventId 1000 "k3j9x0qza"
    ≠ "events/" +:+ generateEventId 1000 "8fh2m1xcv".
Proof.
  apply (generateEventId_injective 1000 "k3j9x0qza" 1000 "8fh2m1xcv").
  right. discriminate.
Defined.

(** ** The state manager, further *)

Section ObjectsMore.

Lemma obj_get_delete k k' o :
  obj_get k (obj_delete k' o) = if String.eqb k k' then None else obj_get k o.
Proof.
  induction o as [|[k0 v0] o IH]; cbn; [by destruct (String.eqb k k')|].
  destruct (String.eqb_spec k' k0) as [->|Hne]; cbn.
  - rewrite IH. by destruct (String.eqb k k0).
  - rewrite IH. destruct (String.eqb_spec k k0) as [->|_]; [|done].
    by destruct (String.eqb_spec k0 k'); [subst|].
Qed.

Lemma obj_set_keys k v o :
  (obj_set k v o).*1 = if decide (k ∈ o.*1) then o.*1 else o.*1 ++ [k].
Proof.
  induction o as [|[k0 v0] o IH]; cbn.
  - rewrite decide_False; [done|]. apply not_elem_of_nil.
  - destruct (String.eqb_spec k k0) as [->|Hne]; cbn.
    + by rewrite decide_True by by left.
    + rewrite IH. destruct (decide (k ∈ o.*1)) as [Hin|Hout].
      * by rewrite decide_True by by right.
      * rewrite decide_False; [done|]. by apply not_elem_of_cons.
Qed.

Lemma obj_set_NoDup k v o : NoDup o.*1 → NoDup (obj_set k v o).*1.
Proof.
  intros Hnd. rewrite obj_set_keys. case_decide; [done|].
  apply NoDup_app. split; [done|]. split; [|apply NoDup_singleton].
  intros x Hx Hx'. apply list_elem_of_singleton in Hx'. by subst.
Qed.

Lemma assign_NoDup target src : NoDup target.*1 → NoDup (assign target src).*1.
Proof.
  revert target. unfold assign.
  induction src as [|[k v] src IH]; intros target Hnd; cbn [fold_left]; [done|].
  by apply IH, obj_set_NoDup.
Qed.

Lemma obj_get_is_Some_assign k target src :
  is_Some (obj_get k target) → is_Some (obj_get k (assign target src)).
Proof.
  intros [v Hv]. rewrite obj_get_assign, Hv.
  by destruct (obj_last k src).
Qed.

End ObjectsMore.

Section ManagerMore.

Context {App : Type}.
Variable rs : Handler → json → json → App → outcome App.
Implicit Types (w : World App) (t : Stamps).

Lemma setData_run path data (w : World App) :
  ∃ b, setData path data w = Ok b (final (setData path data w)).
Proof.
  destruct (setData_returns path data w) as [b Hb].
  destruct (setData path data w); [by eexists|done].
Qed.

Lemma broadcastEvent_run eventType eventData t (w : World App) :
  broadcastEvent eventType eventData t w
  = Ok true (final (sendEvent eventType eventData t w)).
Proof.
  unfold broadcastEvent, try_catch, bind, sendEvent.
  by destruct (setData_run
                 ("events/" +:+ ev_id (mkEvent eventType eventData (event_now t)
                                         (generateEventId (id_now t) (id_random t))))
                 (event_json (mkEvent eventType eventData (event_now t)
                                (generateEventId (id_now t) (id_random t)))) w)
    as [b ->].
Qed.

(** The steps of [updateState], one after the other. *)
Lemma updateState_final newState broadcast t w :
  final (updateState rs newState broadcast t w)
  = let w1 := set_state (spread2 (state w) newState) w in
    let w2 := final (setData "lotteryState" (JObj (state w1)) w1) in
    let w3 :=
      if broadcast
      then final (sendEvent EVENT_TYPES.STATE_CHANGED
                    (JObj [("state", JObj (state w2));
                           ("timestamp", JNum (payload_now t))]) t w2)
      else w2 in
    final (triggerStateCallbacks rs (JObj (state w3)) (JObj (state w)) w3).
Proof.
  cbv zeta. unfold updateState. rewrite final_bind. cbn [gets].
  rewrite final_bind. cbn [modify]. rewrite final_bind. cbn [gets].
  rewrite final_bind.
  destruct (setData_run "lotteryState"
              (JObj (state (set_state (spread2 (state w) newState) w)))
              (set_state (spread2 (state w) newState) w)) as [b ->].
  cbn [final]. rewrite final_bind.
  destruct broadcast.
  - unfold bind at 1. cbn [gets]. unfold LotteryEvents_updateState.
    unfold bind at 1. rewrite broadcastEvent_run. cbn [ret].
    rewrite final_bind. by cbn [gets].
  - cbn [ret]. rewrite final_bind. by cbn [gets].
Qed.

Lemma sendEvent_state eventType eventData t w :
  state (final (sendEvent eventType eventData t w)) = state w.
Proof.
  assert (Hkeep : keeps (App:=App) state (sendEvent eventType eventData t))
    by (open_client; step_through; leaf).
  apply Hkeep.
Qed.

Lemma setData_state path data w : state (final (setData path data w)) = state w.
Proof.
  assert (Hkeep : keeps (App:=App) state (setData path data))
    by (open_client; step_through; leaf).
  apply Hkeep.
Qed.


Lemma event_key_ne_state_key id :
  localKey ("events/" +:+ id) ≠ localKey "lotteryState".
Proof.
  unfold localKey. rewrite !append_cons, !append_nil. cbn [replace_slashes].
  intros Heq. injection Heq as Heq. discriminate.
Qed.

Lemma updateState_get newState broadcast t w k :
  obj_get k (state (final (updateState rs newState broadcast t w)))
  = match obj_last k (from_option own_props [] newState) with
    | Some v => Some v
    | None => obj_get k (state w)
    end.
Proof. by rewrite updateState_state, <- obj_get_assign. Qed.

Lemma updateState_run newState broadcast t w :
  updateState rs newState broadcast t w
  = Ok tt (final (updateState rs newState broadcast t w)).
Proof.
  destruct (updateState_safe rs newState broadcast t w) as [[] Hr].
  by destruct (updateState rs newState broadcast t w) as [[] w'|e w'].
Qed.

Lemma winner_record_get winner st k :
  obj_get k (winner_record winner st)
  = if String.eqb k "prize" then obj_get "currentPrize" st
    else obj_last k (own_props winner).
Proof.
  unfold winner_record, spread2. cbn [from_option].
  destruct (obj_get "currentPrize" st) as [prize|].
  - rewrite obj_get_set. destruct (String.eqb k "prize"); [done|].
    rewrite obj_get_assign. by destruct (obj_last k (own_props winner)).
  - rewrite obj_get_delete. destruct (String.eqb k "prize"); [done|].
    rewrite obj_get_assign. by destruct (obj_last k (own_props winner)).
Qed.

(** X15: when [winners] is an array, [showWinner] returns and adds one
    record at its end, leaving the records before it in place: the record
    has the properties of the winner and, as [prize], the current prize;
    the status becomes ['showing'] and [currentWinner] the winner.  When the
    state has no [winners] (or one that cannot be spread) it throws before
    it changes anything. *)
Theorem showWinner_appends w winner t :
  (iterate (obj_get "winners" (state w)) = None →
   showWinner rs winner t w = None)
  ∧ (∀ winners, obj_get "winners" (state w) = Some (JArr winners) →
     ∃ r, showWinner rs winner t w = Some r
          ∧ returned r = Some tt
          ∧ obj_get "winners" (state (final r))
            = Some (JArr (winners ++ [JObj (winner_record winner (state w))]))
          ∧ obj_get "status" (state (final r)) = Some (JStr "showing")
          ∧ obj_get "currentWinner" (state (final r)) = Some winner
          ∧ obj_get "prize" (winner_record winner (state w))
            = obj_get "currentPrize" (state w)
          ∧ (∀ k, k ≠ "prize" →
               obj_get k (winner_record winner (state w))
               = obj_last k (own_props winner))).
Proof.
  split.
  - intros Hnone. unfold showWinner. by rewrite Hnone.
  - intros winners Hw. unfold showWinner. rewrite Hw. cbn [iterate].
    eexists. split; [done|]. rewrite updateState_run. cbn [returned final].
    split; [done|]. rewrite !updateState_get. cbn [from_option own_props].
    do 3 (split; [done|]). split.
    + by rewrite winner_record_get.
    + intros k Hk. rewrite winner_record_get.
      by destruct (String.eqb_spec k "prize").
Qed.

(** X16: when [completedPrizes] is an array, [completePrize] returns and adds
    the current prize at its end ([null] when there is none); the status
    becomes ['finished'] and every other key, the current prize, the current
    winner and the winners among them, is as before.  When the state has no
    [completedPrizes] it throws before it changes anything. *)
Theorem completePrize_appends w t :
  (iterate (obj_get "completedPrizes" (state w)) = None →
   completePrize rs t w = None)
  ∧ (∀ completed, obj_get "completedPrizes" (state w) = Some (JArr completed) →
     ∃ r, completePrize rs t w = Some r
          ∧ returned r = Some tt
          ∧ obj_get "completedPrizes" (state (final r))
            = Some (JArr (completed
                          ++ [default JNull (obj_get "currentPrize" (state w))]))
          ∧ obj_get "status" (state (final r)) = Some (JStr "finished")
          ∧ (∀ k, k ≠ "status" → k ≠ "completedPrizes" →
               obj_get k (state (final r)) = obj_get k (state w))).
Proof.
  split.
  - intros Hnone. unfold completePrize. by rewrite Hnone.
  - intros completed Hc. unfold completePrize. rewrite Hc. cbn [iterate].
    eexists. split; [done|]. rewrite updateState_run. cbn [returned final].
    split; [done|]. rewrite !updateState_get. cbn [from_option own_props].
    do 2 (split; [done|]).
    intros k Hk1 Hk2. rewrite updateState_get. cbn [from_option own_props].
    unfold obj_last. cbn.
    destruct (String.eqb_spec k "completedPrizes"); [done|].
    by destruct (String.eqb_spec k "status").
Qed.

(** X17: [resetLottery] puts the status back to ['waiting'] and clears the
    current prize and winner, and nothing more: the winners and the
    completed prizes stay; [clearAllData] also empties these two lists, and
    leaves every other key ([availableEmployees] among them) as it is. *)
Theorem resetLottery_keeps_winners w t :
  (let w' := final (resetLottery rs t w) in
   obj_get "status" (state w') = Some (JStr "waiting")
   ∧ obj_get "currentPrize" (state w') = Some JNull
   ∧ obj_get "currentWinner" (state w') = Some JNull
   ∧ (∀ k, k ≠ "status" → k ≠ "currentPrize" → k ≠ "currentWinner" →
        obj_get k (state w') = obj_get k (state w)))
  ∧ (let w' := final (clearAllData rs t w) in
     obj_get "status" (state w') = Some (JStr "waiting")
     ∧ obj_get "currentPrize" (state w') = Some JNull
     ∧ obj_get "currentWinner" (state w') = Some JNull
     ∧ obj_get "winners" (state w') = Some (JArr [])
     ∧ obj_get "completedPrizes" (state w') = Some (JArr [])
     ∧ (∀ k, k ≠ "status" → k ≠ "currentPrize" → k ≠ "currentWinner" →
          k ≠ "winners" → k ≠ "completedPrizes" →
          obj_get k (state w') = obj_get k (state w))).
Proof.
  cbv zeta. unfold resetLottery, clearAllData.
  rewrite !updateState_get. cbn [from_option own_props].
  split.
  - do 3 (split; [done|]). intros k H1 H2 H3.
    rewrite updateState_get. cbn [from_option own_props]. unfold obj_last. cbn.
    destruct (String.eqb_spec k "currentWinner"); [done|].
    destruct (String.eqb_spec k "currentPrize"); [done|].
    by destruct (String.eqb_spec k "status").
  - do 5 (split; [done|]). intros k H1 H2 H3 H4 H5.
    rewrite updateState_get. cbn [from_option own_props]. unfold obj_last. cbn.
    destruct (String.eqb_spec k "completedPrizes"); [done|].
    destruct (String.eqb_spec k "winners"); [done|].
    destruct (String.eqb_spec k "currentWinner"); [done|].
    destruct (String.eqb_spec k "currentPrize"); [done|].
    by destruct (String.eqb_spec k "status").
Qed.

(** X18: a whole round: from a state whose [winners] and [completedPrizes]
    are arrays, [startLottery(prize)], [showWinner(winner)] and
    [completePrize()] all return, and leave the status ['finished'], the
    winner recorded last with the prize that was drawn, that prize last
    among the completed ones, and the current prize and winner still set. *)
Theorem round_records_winner_and_prize w prize winner t1 t2 t3 winners completed :
  obj_get "winners" (state w) = Some (JArr winners) →
  obj_get "completedPrizes" (state w) = Some (JArr completed) →
  ∃ w' record,
    round rs prize winner t1 t2 t3 w = Some w'
    ∧ obj_get "status" (state w') = Some (JStr "finished")
    ∧ obj_get "winners" (state w') = Some (JArr (winners ++ [JObj record]))
    ∧ obj_get "prize" record = Some prize
    ∧ obj_get "completedPrizes" (state w') = Some (JArr (completed ++ [prize]))
    ∧ obj_get "currentPrize" (state w') = Some prize
    ∧ obj_get "currentWinner" (state w') = Some winner.
Proof.
  intros Hw Hc. unfold round. cbv zeta.
  set (w1 := final (startLottery rs prize t1 w)).
  assert (Hw1 : ∀ k, obj_get k (state w1)
                     = match obj_last k [("status", JStr "rolling");
                                         ("currentPrize", prize);
                                         ("currentWinner", JNull)] with
                       | Some v => Some v
                       | None => obj_get k (state w)
                       end).
  { intros k. subst w1. unfold startLottery. by rewrite updateState_get. }
  assert (Hwin1 : obj_get "winners" (state w1) = Some (JArr winners))
    by by rewrite Hw1.
  unfold showWinner. rewrite Hwin1. cbn [iterate].
  set (record := winner_record winner (state w1)).
  set (w2 := final (updateState rs _ true t2 w1)).
  assert (Hw2 : ∀ k, obj_get k (state w2)
                     = match obj_last k [("status", JStr "showing");
                                         ("currentWinner", winner);
                                         ("winners",
                                          JArr (winners ++ [JObj record]))] with
                       | Some v => Some v
                       | None => obj_get k (state w1)
                       end).
  { intros k. subst w2. by rewrite updateState_get. }
  assert (Hc2 : obj_get "completedPrizes" (state w2) = Some (JArr completed))
    by by rewrite Hw2, Hw1.
  assert (Hp2 : obj_get "currentPrize" (state w2) = Some prize)
    by by rewrite Hw2, Hw1.
  unfold completePrize. rewrite Hc2, Hp2. cbn [iterate default].
  eexists _, record. split; [done|].
  rewrite !updateState_get. cbn [from_option own_props].
  split; [done|]. split; [by rewrite Hw2|].
  split; [subst record; by rewrite winner_record_get, Hw1|].
  split; [done|]. split; [by rewrite Hw2, Hw1|by rewrite Hw2].
Qed.


Lemma setData_app path data w : app (final (setData path data w)) = app w.
Proof.
  assert (Hkeep : keeps (App:=App) app (setData path data))
    by (open_client; step_through; leaf).
  apply Hkeep.
Qed.

Lemma setData_stateCallbacks path data w :
  stateCallbacks (final (setData path data w)) = stateCallbacks w.
Proof.
  assert (Hkeep : keeps (App:=App) stateCallbacks (setData path data))
    by (open_client; step_through; leaf).
  apply Hkeep.
Qed.

Lemma state_callbacks_run cbs newState oldState w :
  forEach cbs (λ cb,
    try_catch
      (λ w, let c := StateCallback cb newState oldState in
            match rs cb newState oldState (app w) with
            | Returns a => Ok tt (set_app a c w)
            | Throws a => Raise CallbackThrew (set_app a c w)
            end)
      (λ _, ret tt)) w
  = Ok tt (after_calls (told rs cbs newState oldState (app w))
             (state_calls cbs newState oldState) w).
Proof.
  revert w. induction cbs as [|cb cbs IH]; intros w.
  - cbn. by rewrite after_calls_nil.
  - cbn [forEach]. unfold bind at 1, try_catch at 1. cbv zeta.
    destruct (rs cb newState oldState (app w)) as [a|a] eqn:Hrun;
      (cbn [ret]; rewrite IH; f_equal;
       unfold after_calls, set_app, told, state_calls; cbn;
       rewrite Hrun; cbn; by rewrite <- app_assoc).
Qed.

Lemma triggerStateCallbacks_run newState oldState w :
  triggerStateCallbacks rs newState oldState w
  = Ok tt (after_calls (told rs (stateCallbacks w) newState oldState (app w))
             (state_calls (stateCallbacks w) newState oldState) w).
Proof.
  unfold triggerStateCallbacks. unfold bind. cbn [gets].
  apply state_callbacks_run.
Qed.

(** The steps of [setData] and [updateState], as functions of the world. *)
Lemma setData_call_run path data w :
  setData_call path data w
  = Ok (online w) (set_localStorage (<[localKey path := data]> (localStorage w)) w).
Proof. reflexivity. Qed.

Lemma setData_settle_run path data requested w :
  setData_settle path data requested w
  = if requested then
      if next_rejected w
      then Ok false
             (set_localStorage (<[localKey path := data]> (localStorage w))
                (set_cloud (cloud w) (tail (rejections w)) w))
      else Ok true (set_cloud (<[path := data]> (cloud w)) (tail (rejections w)) w)
    else Ok true w.
Proof.
  unfold setData_settle. destruct requested; [|done].
  unfold try_catch, bind. destruct (next_rejected w) eqn:Hrej.
  - by rewrite db_set_rejected.
  - by rewrite db_set_accepted.
Qed.

(** A [setData] that runs to its end is its two steps, one after the
    other. *)
Lemma setData_steps path data w :
  setData path data w
  = (let* requested := setData_call path data in
     setData_settle path data requested) w.
Proof.
  unfold bind. rewrite setData_call_run, setData_settle_run.
  destruct (online w) eqn:Hon; [destruct (next_rejected w) eqn:Hrej|].
  - rewrite setData_rejected by done.
    change (next_rejected (set_localStorage _ w)) with (next_rejected w).
    rewrite Hrej. cbn. by rewrite insert_insert_eq.
  - rewrite setData_accepted by done.
    change (next_rejected (set_localStorage _ w)) with (next_rejected w).
    by rewrite Hrej.
  - by rewrite setData_offline.
Qed.

Lemma updateState_call_run newState broadcast w :
  updateState_call newState broadcast w
  = Ok (mkSuspended (state w) (spread2 (state w) newState) (online w) broadcast)
      (set_localStorage
         (<[localKey "lotteryState" := JObj (spread2 (state w) newState)]>
            (localStorage w))
         (set_state (spread2 (state w) newState) w)).
Proof. reflexivity. Qed.

Lemma updateState_resume_run s t w :
  updateState_resume rs s t w
  = let event :=
      mkEvent EVENT_TYPES.STATE_CHANGED
        (JObj [("state", JObj (state w)); ("timestamp", JNum (payload_now t))])
        (event_now t) (generateEventId (id_now t) (id_random t)) in
    let path := "events/" +:+ ev_id event in
    let w1 :=
      if s_broadcast s
      then set_localStorage (<[localKey path := event_json event]> (localStorage w)) w
      else w in
    Ok (if s_broadcast s then Some (mkPending path (event_json event) (online w))
        else None)
      (after_calls
         (told rs (stateCallbacks w) (JObj (state w)) (JObj (s_oldState s)) (app w))
         (state_calls (stateCallbacks w) (JObj (state w)) (JObj (s_oldState s)))
         w1).
Proof.
  cbv zeta. unfold updateState_resume. unfold bind at 1.
  destruct (s_broadcast s).
  - unfold bind at 1. cbn [gets]. unfold bind at 1. unfold sendEvent_call.
    unfold bind at 1. rewrite setData_call_run. cbn [ret].
    unfold bind at 1. cbn [gets]. unfold bind.
    by rewrite triggerStateCallbacks_run.
  - cbn [ret]. unfold bind at 1. cbn [gets]. unfold bind.
    by rewrite triggerStateCallbacks_run.
Qed.

(** The outcome of a request and the calls of callbacks can come in either
    order. *)
Lemma settle_after_calls path data a calls w :
  final ((setData_settle path data (online w) ;; ret tt)
           (after_calls a calls
              (set_localStorage (<[localKey path := data]> (localStorage w)) w)))
  = after_calls a calls (final (setData path data w)).
Proof.
  rewrite final_bind, setData_settle_run.
  change (next_rejected (after_calls _ _ _)) with (next_rejected w).
  destruct (online w) eqn:Hon; [destruct (next_rejected w) eqn:Hrej|].
  - by rewrite setData_rejected.
  - by rewrite setData_accepted.
  - by rewrite setData_offline.
Qed.

(** An [updateState] that runs to its end is its steps, one after the
    other: the call, the outcome of its request, the resumption, and the
    outcome of the request of the broadcast. *)
Lemma updateState_steps newState broadcast t w :
  ∃ s w1 b w2 p w3,
    updateState_call newState broadcast w = Ok s w1
    ∧ updateState_settle s w1 = Ok b w2
    ∧ updateState_resume rs s t w2 = Ok p w3
    ∧ final (updateState rs newState broadcast t w)
      = final (broadcast_settle p w3).
Proof.
  rewrite updateState_call_run.
  set (st := spread2 (state w) newState).
  set (w0 := set_state st w).
  set (w1 := set_localStorage _ w0).
  exists (mkSuspended (state w) st (online w) broadcast), w1.
  unfold updateState_settle. cbn [s_data s_requested].
  rewrite setData_settle_run, updateState_final. cbv zeta.
  fold st. fold w0. change (state w0) with st.
  change (next_rejected w1) with (next_rejected w0).
  change (cloud w1) with (cloud w0). change (rejections w1) with (rejections w0).
  change (localStorage w1) with (<[localKey "lotteryState" := JObj st]> (localStorage w0)).
  assert (Hsettled : ∃ b,
    setData "lotteryState" (JObj st) w0
    = (if online w
       then if next_rejected w0
            then Ok false
                   (set_localStorage
                      (<[localKey "lotteryState" := JObj st]>
                         (<[localKey "lotteryState" := JObj st]> (localStorage w0)))
                      (set_cloud (cloud w0) (tail (rejections w0)) w1))
            else Ok true
                   (set_cloud (<[ "lotteryState" := JObj st]> (cloud w0))
                      (tail (rejections w0)) w1)
       else Ok true w1)
    ∧ setData "lotteryState" (JObj st) w0
      = Ok b (final (setData "lotteryState" (JObj st) w0))).
  { destruct (online w) eqn:Hon; [destruct (next_rejected w0) eqn:Hrej|].
    - rewrite setData_rejected by done. by eexists.
    - rewrite setData_accepted by done. by eexists.
    - rewrite setData_offline by done. by eexists. }
  destruct Hsettled as (b & Hsettled & _).
  set (w2 := final (setData "lotteryState" (JObj st) w0)).
  assert (Hw2 :
    (if online w
     then if next_rejected w0
          then Ok false
                 (set_localStorage
                    (<[localKey "lotteryState" := JObj st]>
                       (<[localKey "lotteryState" := JObj st]> (localStorage w0)))
                    (set_cloud (cloud w0) (tail (rejections w0)) w1))
          else Ok true
                 (set_cloud (<[ "lotteryState" := JObj st]> (cloud w0))
                    (tail (rejections w0)) w1)
     else Ok true w1)
    = Ok (if online w then negb (next_rejected w0) else true) w2).
  { subst w2. rewrite Hsettled.
    by destruct (online w); [destruct (next_rejected w0)|]. }
  rewrite Hw2. exists (if online w then negb (next_rejected w0) else true), w2.
  rewrite updateState_resume_run. cbv zeta. cbn [s_broadcast s_oldState].
  eexists _, _. do 3 (split; [reflexivity|]).
  rewrite triggerStateCallbacks_run. cbn [final].
  destruct broadcast; [|reflexivity].
  unfold broadcast_settle, sendEvent. cbn [p_path p_data p_requested ev_id].
  rewrite setData_stateCallbacks, setData_app, !(setData_state _ _ w2). symmetry.
  exact (settle_after_calls _ _ _ _ w2).
Qed.

(** X14: [updateState] caches the canonical state when it is called,
    before its [await] and before anything reaches the remote store.  When
    its request is settled, an accepted one leaves the cache alone and a
    rejected one writes the state of this call to the cache again, whatever
    the state and the cache have become in between; the resumption does not
    touch the entry, and without broadcast it writes nothing.  So the cache
    still holds the canonical state after a request is settled when no
    other update has come in between. *)
Theorem updateState_persists :
  (∀ w newState broadcast, ∃ s w1,
     updateState_call newState broadcast w = Ok s w1
     ∧ state w1 = spread2 (state w) newState
     ∧ s_data s = state w1
     ∧ cached "lotteryState" w1 = JObj (state w1)
     ∧ cloud w1 = cloud w
     ∧ (∀ key, key ≠ localKey "lotteryState" →
          localStorage w1 !! key = localStorage w !! key))
  ∧ (∀ s w, ∃ b w',
       updateState_settle s w = Ok b w'
       ∧ state w' = state w
       ∧ cached "lotteryState" w'
         = (if s_requested s && next_rejected w then JObj (s_data s)
            else cached "lotteryState" w)
       ∧ (∀ key, key ≠ localKey "lotteryState" →
            localStorage w' !! key = localStorage w !! key)
       ∧ (∀ path, path ≠ "lotteryState" → cloud w' !! path = cloud w !! path))
  ∧ (∀ s t w, ∃ p w',
       updateState_resume rs s t w = Ok p w'
       ∧ state w' = state w
       ∧ cached "lotteryState" w' = cached "lotteryState" w
       ∧ cloud w' = cloud w
       ∧ (s_broadcast s = false → p = None ∧ localStorage w' = localStorage w))
  ∧ (∀ s w,
       s_data s = state w → cached "lotteryState" w = JObj (state w) →
       let w' := final (updateState_settle s w) in
       cached "lotteryState" w' = JObj (state w')).
Proof.
  assert (Hsettle : ∀ s w, ∃ b w',
       updateState_settle s w = Ok b w'
       ∧ state w' = state w
       ∧ cached "lotteryState" w'
         = (if s_requested s && next_rejected w then JObj (s_data s)
            else cached "lotteryState" w)
       ∧ (∀ key, key ≠ localKey "lotteryState" →
            localStorage w' !! key = localStorage w !! key)
       ∧ (∀ path, path ≠ "lotteryState" → cloud w' !! path = cloud w !! path)).
  { intros s w. unfold updateState_settle. rewrite setData_settle_run.
    unfold cached.
    destruct (s_requested s); [destruct (next_rejected w)|];
      eexists _, _; (split; [reflexivity|]); cbn; repeat split; try done.
    - by rewrite lookup_insert_eq.
    - intros key Hkey. by rewrite lookup_insert_ne.
    - intros path Hpath. by rewrite lookup_insert_ne. }
  split; [|split; [exact Hsettle|split]].
  - intros w newState broadcast. rewrite updateState_call_run.
    eexists _, _. split; [reflexivity|]. unfold cached. cbn.
    rewrite lookup_insert_eq. repeat split; try done.
    intros key Hkey. by rewrite lookup_insert_ne.
  - intros s t w. rewrite updateState_resume_run. cbv zeta.
    eexists _, _. split; [reflexivity|]. unfold cached.
    destruct (s_broadcast s); cbn; repeat split; try done.
    by rewrite lookup_insert_ne by apply event_key_ne_state_key.
  - intros s w Hdata Hcached w'. subst w'.
    destruct (Hsettle s w) as (b & w' & -> & Hstate & Hc & _). cbn [final].
    rewrite Hc, Hstate, Hdata. by destruct (_ && _).
Qed.

(** X30: two updates that overlap leave a stale state in the cache when
    the request of the first is rejected: after the calls of two
    [updateState] and the outcomes of their requests, the first rejected
    and the second accepted, the canonical state and the remote store have
    both updates, and the cache has the first only. *)
Theorem rejected_update_leaves_stale_cache w n1 b1 n2 b2 rest :
  online w = true → rejections w = true :: false :: rest →
  ∃ s1 w1 s2 w2 w3 w4,
    updateState_call n1 b1 w = Ok s1 w1
    ∧ updateState_call n2 b2 w1 = Ok s2 w2
    ∧ updateState_settle s1 w2 = Ok false w3
    ∧ updateState_settle s2 w3 = Ok true w4
    ∧ state w4 = spread2 (spread2 (state w) n1) n2
    ∧ remote "lotteryState" w4 = JObj (state w4)
    ∧ cached "lotteryState" w4 = JObj (spread2 (state w) n1).
Proof.
  intros Hon Hrej.
  set (st1 := spread2 (state w) n1). set (st2 := spread2 st1 n2).
  set (w1 := set_localStorage
               (<[localKey "lotteryState" := JObj st1]> (localStorage w))
               (set_state st1 w)).
  set (w2 := set_localStorage
               (<[localKey "lotteryState" := JObj st2]> (localStorage w1))
               (set_state st2 w1)).
  set (w3 := set_localStorage
               (<[localKey "lotteryState" := JObj st1]> (localStorage w2))
               (set_cloud (cloud w2) (tail (rejections w2)) w2)).
  set (w4 := set_cloud (<["lotteryState" := JObj st2]> (cloud w3))
               (tail (rejections w3)) w3).
  assert (Hrej2 : next_rejected w2 = true).
  { unfold next_rejected. change (rejections w2) with (rejections w).
    by rewrite Hrej. }
  assert (Hrej3 : next_rejected w3 = false).
  { unfold next_rejected. change (rejections w3) with (tail (rejections w)).
    by rewrite Hrej. }
  exists (mkSuspended (state w) st1 true b1), w1,
         (mkSuspended st1 st2 true b2), w2, w3, w4.
  split. { rewrite updateState_call_run, Hon. reflexivity. }
  split.
  { rewrite updateState_call_run. change (online w1) with (online w).
    rewrite Hon. reflexivity. }
  split.
  { unfold updateState_settle. rewrite setData_settle_run.
    cbn [s_requested s_data]. by rewrite Hrej2. }
  split.
  { unfold updateState_settle. rewrite setData_settle_run.
    cbn [s_requested s_data]. by rewrite Hrej3. }
  split; [reflexivity|]. unfold remote, cached. cbn.
  by rewrite !lookup_insert_eq.
Qed.

(** X19: the callbacks registered with [onStateChange] are called when
    [updateState] resumes after its [await], not when it is called and not
    when its request is settled: each callback registered by then is called
    once, in the order of registration and whichever of them throw, with the
    state as it is by then (the merge of this call when no other update has
    come in between) and the state from before the merge of this call; the
    resumption adds nothing else to the trace. *)
Theorem updateState_notifies :
  (∀ w newState broadcast, ∃ s w1,
     updateState_call newState broadcast w = Ok s w1
     ∧ s_oldState s = state w
     ∧ state w1 = spread2 (state w) newState
     ∧ trace w1 = trace w ∧ app w1 = app w)
  ∧ (∀ s w,
       let w' := final (updateState_settle s w) in
       trace w' = trace w ∧ app w' = app w ∧ state w' = state w)
  ∧ (∀ s t w, ∃ p w',
       updateState_resume rs s t w = Ok p w'
       ∧ trace w'
         = trace w
           ++ state_calls (stateCallbacks w) (JObj (state w)) (JObj (s_oldState s))
       ∧ app w'
         = told rs (stateCallbacks w) (JObj (state w)) (JObj (s_oldState s)) (app w)).
Proof.
  split; [|split].
  - intros w newState broadcast. rewrite updateState_call_run.
    by eexists _, _.
  - intros s w. cbv zeta. unfold updateState_settle. rewrite setData_settle_run.
    by destruct (s_requested s); [destruct (next_rejected w)|].
  - intros s t w. rewrite updateState_resume_run. cbv zeta.
    eexists _, _. split; [reflexivity|].
    by destruct (s_broadcast s).
Qed.

Lemma updateState_cached newState broadcast t w :
  cached "lotteryState" (final (updateState rs newState broadcast t w))
  = JObj (spread2 (state w) newState).
Proof.
  rewrite updateState_final. cbv zeta. unfold cached.
  rewrite (triggerStateCallbacks_keeps rs localStorage) by done.
  destruct broadcast.
  - unfold sendEvent. rewrite !setData_localStorage.
    rewrite lookup_insert_ne by apply event_key_ne_state_key.
    by rewrite lookup_insert_eq.
  - rewrite !setData_localStorage. by rewrite lookup_insert_eq.
Qed.

Lemma updateState_NoDup newState broadcast t w :
  NoDup (state w).*1 → NoDup (state (final (updateState rs newState broadcast t w))).*1.
Proof. intros Hnd. rewrite updateState_state. by apply assign_NoDup. Qed.

(** X20: the echo of a broadcast undoes what was done since: when the
    state carried by the event of an earlier [updateState] comes back
    through the handler of [STATE_CHANGED] after a later [updateState], every
    key the state had at the time of the broadcast gets back the value it
    had then. *)
Theorem echo_reverts_later_update w p1 t1 p2 b2 t2 t3 :
  NoDup (state w).*1 →
  let w1 := final (updateState rs p1 true t1 w) in
  let echo := JObj [("state", JObj (state w1)); ("timestamp", JNum (payload_now t1))] in
  let w2 := final (updateState rs p2 b2 t2 w1) in
  let w3 := final (stateChanged_handler rs echo t3 w2) in
  ∀ k, is_Some (obj_get k (state w1)) → obj_get k (state w3) = obj_get k (state w1).
Proof.
  intros Hnd w1 echo w2 w3 k [v Hk]. subst w3 echo.
  cbn [stateChanged_handler obj_get String.eqb Ascii.eqb Bool.eqb].
  rewrite updateState_get. cbn [from_option own_props].
  rewrite obj_last_get by by apply updateState_NoDup.
  by rewrite Hk.
Qed.


End ManagerMore.

Lemma round_records_winner_and_prize_witness :
  ∃ w' record,
    round quiet (JObj [("id", JStr "p1"); ("name", JStr "Prize1")])
      (JObj [("name", JStr "Ann")]) noon noon noon (client true ∅ ∅ [])
    = Some w'
    ∧ obj_get "status" (state w') = Some (JStr "finished")
    ∧ obj_get "winners" (state w') = Some (JArr ([] ++ [JObj record]))
    ∧ obj_get "prize" record
      = Some (JObj [("id", JStr "p1"); ("name", JStr "Prize1")])
    ∧ obj_get "completedPrizes" (state w')
      = Some (JArr ([] ++ [JObj [("id", JStr "p1"); ("name", JStr "Prize1")]]))
    ∧ obj_get "currentPrize" (state w')
      = Some (JObj [("id", JStr "p1"); ("name", JStr "Prize1")])
    ∧ obj_get "currentWinner" (state w') = Some (JObj [("name", JStr "Ann")]).
Proof.
  apply (round_records_winner_and_prize quiet (client true ∅ ∅ [])
           (JObj [("id", JStr "p1"); ("name", JStr "Prize1")])
           (JObj [("name", JStr "Ann")]) noon noon noon [] []);
    reflexivity.
Defined.

Lemma rejected_update_leaves_stale_cache_witness :
  let w := client true ∅ ∅ [true; false] in
  let n1 := Some (JObj [("status", JStr "rolling")]) in
  let n2 := Some (JObj [("status", JStr "showing")]) in
  ∃ s1 w1 s2 w2 w3 w4,
    updateState_call n1 true w = Ok s1 w1
    ∧ updateState_call n2 true w1 = Ok s2 w2
    ∧ updateState_settle s1 w2 = Ok false w3
    ∧ updateState_settle s2 w3 = Ok true w4
    ∧ state w4 = spread2 (spread2 (state w) n1) n2
    ∧ remote "lotteryState" w4 = JObj (state w4)
    ∧ cached "lotteryState" w4 = JObj (spread2 (state w) n1).
Proof.
  apply (rejected_update_leaves_stale_cache (client true ∅ ∅ [true; false])
           (Some (JObj [("status", JStr "rolling")])) true
           (Some (JObj [("status", JStr "showing")])) true []);
    reflexivity.
Defined.

Lemma echo_reverts_later_update_witness :
  let w := client true ∅ ∅ [] in
  let w1 := final (updateState quiet (Some (JObj [("status", JStr "rolling")])) true noon w) in
  let echo := JObj [("state", JObj (state w1)); ("timestamp", JNum (payload_now noon))] in
  let w2 := final (updateState quiet (Some (JObj [("status", JStr "showing")])) true noon w1) in
  let w3 := final (stateChanged_handler quiet echo noon w2) in
  obj_get "status" (state w2) = Some (JStr "showing")
  ∧ obj_get "status" (state w3) = obj_get "status" (state w1).
Proof.
  cbv zeta. split; [reflexivity|].
  apply (echo_reverts_later_update quiet (client true ∅ ∅ [])
           (Some (JObj [("status", JStr "rolling")])) noon
           (Some (JObj [("status", JStr "showing")])) true noon noon).
  - apply (bool_decide_unpack (NoDup (state (client true ∅ ∅ [])).*1)).
    vm_compute. exact I.
  - exists (JStr "rolling"). reflexivity.
Defined.

Section StateInvariant.

Context {App : Type}.
Variable rh : Handler → json → Event → App → outcome App.
Variable rc : Handler → bool → bool → App → outcome App.
Variable rs : Handler → json → json → App → outcome App.
Implicit Types (w : World App) (t : Stamps).

Lemma complete_state_assign st src :
  complete_state st → complete_state (assign st src).
Proof.
  intros [Hnd Hkeys]. split; [by apply assign_NoDup|].
  intros k Hk. by apply obj_get_is_Some_assign, Hkeys.
Qed.

Lemma complete_state_default : complete_state default_state.
Proof.
  split.
  - apply (bool_decide_unpack (NoDup default_state.*1)). vm_compute. exact I.
  - intros k Hk. cbn in Hk.
    repeat (apply elem_of_cons in Hk as [->|Hk]; [by eexists|]).
    by apply elem_of_nil in Hk.
Qed.

Lemma perform_state op w :
  state (final (perform rh rc rs op w)) = state w
  ∨ ∃ newState, state (final (perform rh rc rs op w)) = spread2 (state w) newState.
Proof.
  destruct op as [val|path data|path|eventType eventData t|n|eventType handler
                 |eventType handler|callback|newState broadcast t];
    try (left;
         match goal with
         | |- state (final (?m w)) = _ =>
             assert (Hkeep : keeps state m);
             [solve [unfold setupConnectionMonitoring_value; open_client;
                     step_through; try leaf]
             |apply Hkeep]
         end).
  right. exists newState. apply updateState_state.
Qed.

Lemma init_state fails w : state (final (init rc fails w)) = state w.
Proof.
  assert (Hkeep : keeps state (init rc fails)).
  { unfold init. open_client. step_through. leaf. }
  apply Hkeep.
Qed.

Lemma LotteryStateManager_init_state handler w :
  state (final (LotteryStateManager_init handler w))
  = if truthy (default JNull (returned (getData "lotteryState" w)))
    then spread2 (state w) (Some (default JNull (returned (getData "lotteryState" w))))
    else state w.
Proof.
  unfold LotteryStateManager_init. rewrite final_bind.
  assert (Hsafe : safe (App:=App) (getData "lotteryState"))
    by (open_client; step_through).
  destruct (safe_run (getData "lotteryState") w Hsafe) as [saved Hrun].
  assert (Hst : state (final (getData "lotteryState" w)) = state w).
  { assert (Hkeep : keeps (App:=App) state (getData "lotteryState"))
      by (open_client; step_through; leaf).
    apply Hkeep. }
  rewrite Hrun. cbn [returned from_option final id].
  rewrite final_bind. destruct (truthy saved) eqn:Htruthy; cbn [modify ret].
  - cbn. by rewrite Hst.
  - cbn. by rewrite Hst.
Qed.

(** X22: the canonical state never loses a key and never gets one twice:
    in every world a client reaches, and after the hydration of
    [LotteryStateManager.init] and the handler of [STATE_CHANGED], the state
    has each key of the default state, and each of its keys once. *)
Theorem state_stays_complete :
  (∀ w, reachable rh rc rs w → complete_state (state w))
  ∧ (∀ w handler, complete_state (state w) →
       complete_state (state (final (LotteryStateManager_init handler w))))
  ∧ (∀ w data t, complete_state (state w) →
       complete_state (state (final (stateChanged_handler rs data t w)))).
Proof.
  split; [|split].
  - induction 1 as [db ls script a fails|w op Hw IH].
    + rewrite init_state. apply complete_state_default.
    + destruct (perform_state op w) as [->|[newState ->]]; [done|].
      by apply complete_state_assign.
  - intros w handler Hw. rewrite LotteryStateManager_init_state.
    destruct (truthy _); [|done]. by apply complete_state_assign.
  - intros w data t Hw.
    destruct data; cbn [stateChanged_handler throw final];
      rewrite ?updateState_state; try done; by apply complete_state_assign.
Qed.

(** X23: what [updateState] has persisted is what the manager of a
    reloaded page starts from: a manager constructed over the same cache,
    before any connection is reported, hydrates to a state that has, for
    every key of the persisted state, the persisted value, and the default
    value for the keys it lacks; and it has registered its handler for
    [STATE_CHANGED]. *)
Theorem hydration_restores_state w newState broadcast t db script (a : App) handler :
  NoDup (state w).*1 →
  let w' := final (updateState rs newState broadcast t w) in
  let reloaded :=
    final (LotteryStateManager_init handler
             (FirebaseCore_new db (localStorage w') script a)) in
  (∀ k, obj_get k (state reloaded)
        = match obj_get k (state w') with
          | Some v => Some v
          | None => obj_get k default_state
          end)
  ∧ registered EVENT_TYPES.STATE_CHANGED reloaded = [handler].
Proof.
  intros Hnd w' reloaded. subst reloaded.
  set (w0 := FirebaseCore_new db (localStorage w') script a).
  assert (Hget : getData "lotteryState" w0 = Ok (JObj (state w')) w0).
  { rewrite getData_offline by done. f_equal.
    pose proof (updateState_cached rs newState broadcast t w) as Hc.
    unfold cached in Hc. subst w0 w'. cbn [localStorage FirebaseCore_new].
    by rewrite Hc, updateState_state. }
  split.
  - intros k. rewrite LotteryStateManager_init_state, Hget.
    cbn [returned from_option id truthy]. unfold spread2.
    cbn [from_option own_props].
    rewrite obj_get_assign, obj_last_get by by apply updateState_NoDup.
    done.
  - unfold LotteryStateManager_init. rewrite final_bind, Hget.
    rewrite final_bind. cbn [truthy modify]. by rewrite registered_on, decide_True.
Qed.

End StateInvariant.

Lemma hydration_restores_state_witness :
  let w := client true ∅ ∅ [] in
  let w' := final (updateState quiet (Some (JObj [("status", JStr "rolling")])) true noon w) in
  let reloaded :=
    final (LotteryStateManager_init 7%nat
             (FirebaseCore_new ∅ (localStorage w') [] tt)) in
  (∀ k, obj_get k (state reloaded)
        = match obj_get k (state w') with
          | Some v => Some v
          | None => obj_get k default_state
          end)
  ∧ registered EVENT_TYPES.STATE_CHANGED reloaded = [7%nat].
Proof.
  apply (hydration_restores_state quiet (client true ∅ ∅ [])
           (Some (JObj [("status", JStr "rolling")])) true noon ∅ [] tt 7%nat).
  apply (bool_decide_unpack (NoDup (state (client true ∅ ∅ [])).*1)).
  vm_compute. exact I.
Defined.

(** ** Subscriptions *)

Section Subscriptions.

Context {App : Type}.
Variable rd : Handler → json → Source → App → outcome App.
Implicit Types (w : World App) (s : Subscriptions) (l : Listener) (i path : string).

Lemma offDataChange_unknown i s : listeners s !! i = None → offDataChange i s = s.
Proof. intros Hi. unfold offDataChange. by rewrite Hi. Qed.

Lemma next_handle_unused s : handles_fresh s → active s !! next_handle s = None.
Proof.
  intros [Hactive _]. destruct (active s !! next_handle s) as [l|] eqn:Hl; [|done].
  apply Hactive in Hl. lia.
Qed.

(** X24: [offDataChange] of an identifier that is not in [this.listeners]
    changes nothing, so a second [offDataChange] of the same identifier
    does nothing; and [offDataChange] of the identifier [onDataChange] has
    just returned detaches what was attached: the listeners and the
    attached handles are what they were before the subscription, provided
    the identifier was not already taken. *)
Theorem offDataChange_undoes_onDataChange :
  (∀ s i, listeners s !! i = None → offDataChange i s = s)
  ∧ (∀ s i, offDataChange i (offDataChange i s) = offDataChange i s)
  ∧ (∀ w s path callback now,
       handles_fresh s →
       listeners s !! (onDataChange path callback now w s).1 = None →
       let s' := offDataChange (onDataChange path callback now w s).1
                   (onDataChange path callback now w s).2 in
       listeners s' = listeners s ∧ active s' = active s).
Proof.
  split; [intros s i; apply offDataChange_unknown|]. split.
  - intros s i. destruct (listeners s !! i) as [l|] eqn:Hl.
    + apply offDataChange_unknown. unfold offDataChange. rewrite Hl. cbn.
      apply lookup_delete_eq.
    + by rewrite !(offDataChange_unknown i s Hl).
  - intros w s path callback now Hfresh Hnew. cbn [onDataChange fst snd] in *.
    unfold offDataChange. cbn [listeners]. rewrite lookup_insert_eq.
    cbn [listeners active l_handle].
    rewrite !delete_insert_eq. split.
    + by apply delete_id.
    + by apply delete_id, next_handle_unused.
Qed.

Lemma offDataChange_keeps_foreign_handle i s h :
  (∀ j l, listeners s !! j = Some l → l_handle l ≠ h) →
  active (offDataChange i s) !! h = active s !! h.
Proof.
  intros Hforeign. unfold offDataChange.
  destruct (listeners s !! i) as [l|] eqn:Hl; [|done].
  cbn. rewrite lookup_delete_ne; [done|]. by apply (Hforeign i l).
Qed.

Lemma cleanup_keeps_foreign_handle w s h :
  (∀ j l, listeners s !! j = Some l → l_handle l ≠ h) →
  active (FirebaseCore_cleanup w s).2 !! h = active s !! h.
Proof.
  intros Hforeign. unfold FirebaseCore_cleanup. cbn [snd active].
  pose (P := λ (r : Subscriptions) (m : gmap string Listener),
               listeners r ⊆ listeners s ∧ active r !! h = active s !! h).
  assert (HP : P (map_fold (λ listenerId _ acc, offDataChange listenerId acc)
                    s (listeners s)) (listeners s)); [|by destruct HP].
  apply (map_fold_weak_ind P).
  - by split.
  - intros j x m r _ [Hsub Hact]. split.
    + unfold offDataChange. destruct (listeners r !! j); [|done]. cbn.
      etrans; [apply delete_subseteq|done].
    + rewrite offDataChange_keeps_foreign_handle; [done|].
      intros j' l' Hl'. apply (Hforeign j' l').
      eapply lookup_weaken; [exact Hl'|exact Hsub].
Qed.

(** X25: two subscriptions to the same path in the same millisecond get the
    same identifier, and the second entry replaces the first in
    [this.listeners]: [offDataChange] of that identifier detaches the second
    only, and what was attached for the first stays attached, out of reach
    of every later [offDataChange] and of [cleanup]. *)
Theorem same_millisecond_subscription_leaks w1 w2 s path cb1 cb2 now :
  handles_fresh s →
  let r1 := onDataChange path cb1 now w1 s in
  let r2 := onDataChange path cb2 now w2 r1.2 in
  let s3 := offDataChange r2.1 r2.2 in
  r1.1 = r2.1
  ∧ listeners s3 !! r1.1 = None
  ∧ (∃ l, active s3 !! next_handle s = Some l
          ∧ l_callback l = cb1 ∧ l_path l = path)
  ∧ (∀ i, active (offDataChange i s3) !! next_handle s = active s3 !! next_handle s)
  ∧ (∀ w, active (FirebaseCore_cleanup w s3).2 !! next_handle s
          = active s3 !! next_handle s).
Proof.
  intros [Hactive Hlisteners]. cbv zeta. cbn [onDataChange fst snd next_handle].
  set (i := path +:+ "_" +:+ pretty now).
  set (l1 := mkListener _ path cb1 (next_handle s)).
  set (l2 := mkListener _ path cb2 (S (next_handle s))).
  set (s2 := mkSubscriptions _ _ _ _ _).
  assert (Hs3 : offDataChange i s2
                = mkSubscriptions (delete i (listeners s))
                    (delete (S (next_handle s))
                       (<[S (next_handle s) := l2]>
                          (<[next_handle s := l1]> (active s))))
                    (S (S (next_handle s))) (isListening s) (eventListenerId s)).
  { unfold offDataChange. subst s2. cbn [listeners]. rewrite lookup_insert_eq.
    cbn. by rewrite !delete_insert_eq. }
  rewrite Hs3. set (s3 := mkSubscriptions _ _ _ _ _).
  assert (Hforeign : ∀ j l, listeners s3 !! j = Some l → l_handle l ≠ next_handle s).
  { intros j l Hl. subst s3. cbn in Hl.
    apply lookup_delete_Some in Hl as [_ Hl]. apply Hlisteners in Hl. lia. }
  split; [done|]. split; [subst s3; cbn; by rewrite lookup_delete_eq|].
  split.
  - exists l1. subst s3. cbn [active].
    rewrite lookup_delete_ne by lia. rewrite lookup_insert_ne by lia.
    by rewrite lookup_insert_eq.
  - split.
    + intros j. by apply offDataChange_keeps_foreign_handle.
    + intros w. by apply cleanup_keeps_foreign_handle.
Qed.

Lemma call_subscriber_cache callback data source w :
  localStorage (final (call_subscriber rd callback data source w)) = localStorage w.
Proof. unfold call_subscriber. by destruct (rd callback data source (app w)). Qed.

(** X26: a listener attached to the database hands each value to its
    subscriber first and mirrors it afterwards: when the subscriber returns,
    a value other than [null] is then in the cache at the key of the path
    (and is what the timer of a local listener on that path hands to its
    own subscriber), while [null] leaves the cache alone; when the
    subscriber throws, the error leaves the listener and the value is not
    mirrored. *)
Theorem cloud_value_mirrors l data w :
  (∀ a, rd (l_callback l) data FromCloud (app w) = Returns a →
     let w' := final (cloud_value rd l data w) in
     returned (cloud_value rd l data w) = Some tt
     ∧ cached (l_path l) w' = (if not_null data then data else cached (l_path l) w)
     ∧ (not_null data = true →
        ∀ l', l_path l' = l_path l →
              checkLocal rd l' w' = call_subscriber rd (l_callback l') data FromLocal w'))
  ∧ (∀ a, rd (l_callback l) data FromCloud (app w) = Throws a →
       returned (cloud_value rd l data w) = None
       ∧ localStorage (final (cloud_value rd l data w)) = localStorage w).
Proof.
  split.
  - intros a Hrun. cbv zeta.
    assert (∃ wa, localStorage wa = localStorage w
                        ∧ cloud_value rd l data w
                          = Ok tt (if not_null data
                                   then set_localStorage
                                          (<[localKey (l_path l) := data]>
                                             (localStorage wa)) wa
                                   else wa))
      as (wa & Hwa & ->).
    { unfold cloud_value, bind, call_subscriber. rewrite Hrun.
      eexists. split; [|by destruct (not_null data)]. done. }
    cbn [returned final]. unfold cached. split; [done|].
    destruct (not_null data) eqn:Hdata.
    + cbn [localStorage set_localStorage]. rewrite lookup_insert_eq.
      split; [done|].
      intros _ l' Hpath. unfold checkLocal, bind. rewrite loadFromLocal_run.
      cbn [localStorage set_localStorage]. by rewrite Hpath, lookup_insert_eq.
    + rewrite Hwa. split; [done|]. discriminate.
  - intros a Hrun. unfold cloud_value, bind.
    unfold call_subscriber. by rewrite Hrun.
Qed.

Lemma listener_id_not_empty path (now : Z) :
  String.eqb (path +:+ "_" +:+ pretty now) "" = false.
Proof.
  destruct path as [|c path]; [|by rewrite append_cons].
  rewrite append_nil. destruct (pretty now); by rewrite ?append_cons.
Qed.

(** X27: [startListening] subscribes once: called while listening it does
    nothing; called otherwise it attaches one listener on [events], of the
    type the connectivity of that moment gives; [stopListening] detaches it
    again and, called while not listening, does nothing. *)
Theorem startListening_subscribes_once :
  (∀ listener now w s, isListening s = true → startListening listener now w s = s)
  ∧ (∀ s, isListening s = false → stopListening s = s)
  ∧ (∀ listener now w s,
       isListening s = false → handles_fresh s →
       listeners s !! ("events" +:+ "_" +:+ pretty now) = None →
       let s1 := startListening listener now w s in
       let s2 := stopListening s1 in
       isListening s1 = true
       ∧ active s1
         = <[next_handle s :=
               mkListener (if online w then FromCloud else FromLocal)
                 "events" listener (next_handle s)]> (active s)
       ∧ isListening s2 = false
       ∧ listeners s2 = listeners s
       ∧ active s2 = active s).
Proof.
  split; [|split].
  - intros listener now w s Hl. unfold startListening. by rewrite Hl.
  - intros s Hl. unfold stopListening. by rewrite Hl.
  - intros listener now w s Hl Hfresh Hnew. cbv zeta.
    unfold startListening. rewrite Hl. cbn [onDataChange].
    split; [done|]. split; [done|].
    unfold stopListening. cbn [isListening eventListenerId negb].
    rewrite listener_id_not_empty. cbn [negb].
    unfold offDataChange. cbn [listeners]. rewrite lookup_insert_eq.
    cbn [isListening listeners active l_handle].
    split; [done|]. rewrite !delete_insert_eq.
    split; [by apply delete_id|by apply delete_id, next_handle_unused].
Qed.

End Subscriptions.

Lemma same_millisecond_subscription_leaks_witness :
  let r1 := onDataChange "prizes" 1%nat 1000 (client true ∅ ∅ []) no_subscriptions in
  let r2 := onDataChange "prizes" 2%nat 1000 (client true ∅ ∅ []) r1.2 in
  let s3 := offDataChange r2.1 r2.2 in
  r1.1 = r2.1
  ∧ listeners s3 !! r1.1 = None
  ∧ (∃ l, active s3 !! next_handle no_subscriptions = Some l
          ∧ l_callback l = 1%nat ∧ l_path l = "prizes")
  ∧ (∀ i, active (offDataChange i s3) !! next_handle no_subscriptions
          = active s3 !! next_handle no_subscriptions)
  ∧ (∀ w : World unit,
       active (FirebaseCore_cleanup w s3).2 !! next_handle no_subscriptions
       = active s3 !! next_handle no_subscriptions).
Proof.
  apply (same_millisecond_subscription_leaks (client true ∅ ∅ []) (client true ∅ ∅ [])
           no_subscriptions "prizes" 1%nat 2%nat 1000).
  split; intros ? ? H; cbn in H; by rewrite lookup_empty in H.
Defined.

(** ** A write and the read that follows *)

Section ReadYourWrite.

Context {App : Type}.
Variable rh : Handler → json → Event → App → outcome App.
Variable rc : Handler → bool → bool → App → outcome App.
Variable rs : Handler → json → json → App → outcome App.
Implicit Types (w : World App).







End ReadYourWrite.


(** The conditions of C1 on what comes in between are needed: after an
    offline write to a path the resync does not push, a reconnection makes
    the read return the older value of the remote store; and an offline
    write to a path with the same cache key replaces the value. *)
Lemma read_after_reconnect_run :
  let w := client false ∅ {["winners" := JArr [JStr "Bob"]]} [] in
  returned (setData "winners" (JArr [JStr "Ann"]) w) = Some true
  ∧ returned
      (getData "winners"
         (after_ops quiet quiet quiet [ConnectedValue (JBool true)]
            (final (setData "winners" (JArr [JStr "Ann"]) w))))
    = Some (JArr [JStr "Bob"]).
Proof. split; vm_compute; reflexivity. Qed.

Lemma read_after_colliding_write_run :
  let w := client false ∅ ∅ [] in
  returned (setData "events/x" (JNum 1) w) = Some true
  ∧ returned
      (getData "events/x"
         (after_ops quiet quiet quiet [SetData "events_x" (JNum 2)]
            (final (setData "events/x" (JNum 1) w))))
    = Some (JNum 2).
Proof. split; vm_compute; reflexivity. Qed.

(** ** The bridges *)

Section BridgeSync.

Context {App : Type}.

Lemma localKey_prefix path : ∃ rest, localKey path = "lottery_" +:+ rest.
Proof. by exists (replace_slashes path). Qed.

(** None of the keys the pages use themselves is a key of the cache. *)
Lemma page_key_not_cache_key key path :
  key ∈ "lotteryState" :: "lotteryEvent" :: sharedKeys → key ≠ localKey path.
Proof.
  intros Hin Heq. destruct (localKey_prefix path) as [rest Hrest].
  rewrite Hrest, !append_cons, append_nil in Heq.
  unfold sharedKeys in Hin. rewrite !elem_of_cons in Hin.
  destruct Hin as [->|[->|[->|[->|[->|[->|Hin]]]]]]; try discriminate.
  by apply elem_of_nil in Hin.
Qed.

Lemma all_accepted_tail (rs : list bool) : all_accepted rs → all_accepted (tail rs).
Proof. unfold all_accepted. destruct rs; [done|]. by inversion 1. Qed.

Lemma admin_push_all (keys : list string) (w : World App) :
  online w = true → all_accepted (rejections w) →
  (∀ k p, k ∈ keys → k ≠ localKey p) →
  ∃ w',
    forEach keys
      (λ key,
         let* data := gets (λ w, localStorage w !! key) in
         match data with
         | Some parsed => try_catch (setData key parsed ;; ret tt) (λ _, ret tt)
         | None => ret tt
         end) w = Ok tt w'
    ∧ (∀ k v, k ∈ keys → localStorage w !! k = Some v → cloud w' !! k = Some v)
    ∧ (∀ k, k ∉ keys → cloud w' !! k = cloud w !! k).
Proof.
  revert w. induction keys as [|k0 ks IH]; intros w Hon Hacc Hkeys.
  { exists w. split; [done|]. split; [|done]. intros k v Hin. by apply elem_of_nil in Hin. }
  cbn [forEach]. unfold bind at 1. unfold bind at 1. cbn [gets].
  assert (Hks : ∀ k p, k ∈ ks → k ≠ localKey p).
  { intros k p Hin. apply Hkeys. by right. }
  destruct (localStorage w !! k0) as [v0|] eqn:Hk0.
  - unfold try_catch, bind. rewrite setData_accepted by (try apply all_accepted_next; done).
    cbn [ret].
    set (w1 := set_cloud _ _ _).
    destruct (IH w1) as (w' & Hrun & Hpushed & Hrest); [done| |done|].
    { by apply all_accepted_tail. }
    exists w'. split; [done|]. split.
    + intros k v Hin Hv. destruct (decide (k ∈ ks)) as [Hin'|Hout].
      * apply Hpushed; [done|]. cbn. rewrite lookup_insert_ne; [done|].
        intros Heq. by apply (Hks k k0).
      * apply elem_of_cons in Hin as [->|Hin]; [|done].
        rewrite Hrest by done. cbn. rewrite lookup_insert_eq. congruence.
    + intros k Hout. apply not_elem_of_cons in Hout as [Hne Hout].
      rewrite Hrest by done. cbn. by rewrite lookup_insert_ne.
  - cbn [ret]. destruct (IH w) as (w' & Hrun & Hpushed & Hrest); [done..|].
    exists w'. split; [done|]. split.
    + intros k v Hin Hv. apply elem_of_cons in Hin as [->|Hin]; [congruence|].
      by apply Hpushed.
    + intros k Hout. apply not_elem_of_cons in Hout as [Hne Hout]. by apply Hrest.
Qed.

Lemma pull_run key (w : World App) :
  online w = true → all_accepted (rejections w) →
  ∃ w',
    pull key w = Ok tt w'
    ∧ online w' = true ∧ all_accepted (rejections w') ∧ cloud w' = cloud w
    ∧ (∀ k, k ≠ key → k ≠ localKey key →
         localStorage w' !! k = localStorage w !! k)
    ∧ (∀ v, cloud w !! key = Some v → truthy v = true →
         localStorage w' !! key = Some v).
Proof.
  intros Hon Hacc. unfold pull, bind.
  destruct (not_null (default JNull (cloud w !! key))) eqn:Hval.
  - rewrite getData_value by (try apply all_accepted_next; done).
    set (v := default JNull (cloud w !! key)).
    destruct (truthy v) eqn:Htr; eexists; (split; [reflexivity|]); cbn;
      (split; [done|]); (split; [by apply all_accepted_tail|]); (split; [done|]); split.
    + intros k Hk Hk'. by rewrite !lookup_insert_ne.
    + intros v' Hv' _. rewrite lookup_insert_eq. subst v. by rewrite Hv'.
    + intros k Hk Hk'. by rewrite !lookup_insert_ne.
    + intros v' Hv' Htr'. subst v. rewrite Hv' in Htr. cbn in Htr. congruence.
  - assert (Hnull : default JNull (cloud w !! key) = JNull).
    { by destruct (default JNull (cloud w !! key)). }
    rewrite getData_null by (try apply all_accepted_next; done).
    set (c := default JNull (localStorage w !! localKey key)).
    destruct (truthy c) eqn:Htr; eexists; (split; [reflexivity|]); cbn;
      (split; [done|]); (split; [by apply all_accepted_tail|]); (split; [done|]); split.
    + intros k Hk Hk'. by rewrite !lookup_insert_ne.
    + intros v' Hv' Htr'. rewrite Hv' in Hnull. cbn in Hnull. subst v'. done.
    + done.
    + intros v' Hv' Htr'. rewrite Hv' in Hnull. cbn in Hnull. subst v'. done.
Qed.

Lemma pull_all (keys : list string) (w : World App) :
  online w = true → all_accepted (rejections w) →
  (∀ k p, k ∈ keys → k ≠ localKey p) →
  ∃ w',
    forEach keys pull w = Ok tt w'
    ∧ (∀ k v, k ∈ keys → cloud w !! k = Some v → truthy v = true →
         localStorage w' !! k = Some v)
    ∧ (∀ k, k ∉ keys → (∀ p, k ≠ localKey p) →
         localStorage w' !! k = localStorage w !! k).
Proof.
  revert w. induction keys as [|k0 ks IH]; intros w Hon Hacc Hkeys.
  { exists w. split; [done|]. split; [|done]. intros k v Hin. by apply elem_of_nil in Hin. }
  destruct (pull_run k0 w Hon Hacc) as (w1 & Hrun1 & Hon1 & Hacc1 & Hcloud1 & Hframe1 & Hset1).
  assert (Hks : ∀ k p, k ∈ ks → k ≠ localKey p).
  { intros k p Hin. apply Hkeys. by right. }
  destruct (IH w1 Hon1 Hacc1 Hks) as (w' & Hrun & Hpulled & Hrest).
  exists w'. split; [|split].
  - cbn [forEach]. unfold bind. by rewrite Hrun1.
  - intros k v Hin Hv Htr. destruct (decide (k ∈ ks)) as [Hin'|Hout].
    + apply Hpulled; [done| |done]. by rewrite Hcloud1.
    + apply elem_of_cons in Hin as [->|Hin]; [|done].
      rewrite Hrest; [by apply Hset1|done|].
      intros p. apply Hkeys. by left.
  - intros k Hout Hk. apply not_elem_of_cons in Hout as [Hne Hout].
    rewrite Hrest by done. by apply Hframe1.
Qed.

Lemma syncMobileFromFirebase_pulls (w : World App) :
  isConnected w = true →
  syncMobileFromFirebase w = forEach sharedKeys pull w.
Proof.
  intros Hc. unfold syncMobileFromFirebase, sharedKeys, forEach, pull.
  unfold bind at 1. cbn [gets]. rewrite Hc. cbn [negb].
  unfold bind, ret.
  repeat match goal with
         | |- context [match ?m with Ok _ _ => _ | Raise _ _ => _ end] =>
             lazymatch m with
             | context [match _ with Ok _ _ => _ | Raise _ _ => _ end] => fail
             | _ => destruct m as [[]?|??] eqn:?
             end
         | |- context [match ?m with Ok _ _ => _ | Raise _ _ => _ end] =>
             lazymatch m with
             | context [match _ with Ok _ _ => _ | Raise _ _ => _ end] => fail
             | _ => destruct m as [??|??] eqn:?
             end
         end; try reflexivity; try congruence.
Qed.

(** X28: what the administration page holds under one of the keys
    [prizes], [winners], [bonusSettings] and [employees] reaches the mobile
    page: when both are online and no request is rejected, after
    [syncAdminToFirebase] on the one and [syncMobileFromFirebase] on the
    other the mobile page holds the same value under the same key, provided
    the value is truthy. [lotteryState] is pushed by the first but never
    fetched by the second: the mobile page keeps its own. *)
Theorem admin_sync_reaches_mobile (wa wm : World App) key v :
  key ∈ sharedKeys →
  online wa = true → all_accepted (rejections wa) →
  online wm = true → all_accepted (rejections wm) →
  cloud wm = cloud (final (syncAdminToFirebase wa)) →
  localStorage wa !! key = Some v → truthy v = true →
  localStorage (final (syncMobileFromFirebase wm)) !! key = Some v
  ∧ localStorage (final (syncMobileFromFirebase wm)) !! "lotteryState"
    = localStorage wm !! "lotteryState"
  ∧ (∀ s, localStorage wa !! "lotteryState" = Some s →
          cloud wm !! "lotteryState" = Some s).
Proof.
  intros Hkey Hona Hacca Honm Haccm Hshared Hv Htr.
  assert (Hca : isConnected wa = true).
  { unfold online in Hona. by apply andb_true_iff in Hona as [? _]. }
  assert (Hcm : isConnected wm = true).
  { unfold online in Honm. by apply andb_true_iff in Honm as [? _]. }
  destruct (admin_push_all
              ["prizes"; "employees"; "winners"; "bonusSettings"; "lotteryState"]
              wa Hona Hacca) as (wa' & Hruna & Hpushed & _).
  { intros k p Hin. apply page_key_not_cache_key.
    unfold sharedKeys. rewrite !elem_of_cons in Hin. rewrite !elem_of_cons. tauto. }
  assert (Hfa : final (syncAdminToFirebase wa) = wa').
  { unfold syncAdminToFirebase. unfold bind at 1. cbn [gets]. rewrite Hca. cbn [negb].
    by rewrite Hruna. }
  rewrite Hfa in Hshared.
  destruct (pull_all sharedKeys wm Honm Haccm) as (wm' & Hrunm & Hpulled & Hrest).
  { intros k p Hin. apply page_key_not_cache_key. by do 2 right. }
  rewrite syncMobileFromFirebase_pulls, Hrunm by done. cbn [final].
  split; [|split].
  - apply Hpulled; [done| |done]. rewrite Hshared. apply Hpushed; [|done].
    unfold sharedKeys in Hkey. rewrite !elem_of_cons in Hkey. rewrite !elem_of_cons. tauto.
  - apply Hrest.
    + unfold sharedKeys. rewrite !elem_of_cons, elem_of_nil.
      intros [?|[?|[?|[?|[]]]]]; discriminate.
    + intros p. apply page_key_not_cache_key. by left.
  - intros s Hs. rewrite Hshared. apply Hpushed; [|done].
    rewrite !elem_of_cons. tauto.
Qed.

End BridgeSync.

Section BridgeCommands.

Context {App : Type}.
Variable storage : string → json → option json → App → App.
Variable handle : option (json → M App unit).

Lemma strict_eq_refl v : primitive v = true → strict_eq v v = true.
Proof.
  destruct v as [|b|n|s|l|o]; cbn; try done; intros _.
  - by destruct b.
  - apply Z.eqb_refl.
  - apply String.eqb_refl.
Qed.

(** X29: a remote command that carries an id (a string, a number or
    [true], and truthy) takes effect once however often it is delivered in a row: the second delivery
    leaves the page, its storage and the remembered id as the first left
    them, whether the first ran the command, skipped it as the page's own,
    or had seen it already. *)
Theorem remote_command_runs_once command (w : World App) lastCommandId :
  truthy_opt (field "id" command) = true →
  from_option primitive false (field "id" command) = true →
  let s1 := final (remoteLotteryEvent_value storage handle command (w, lastCommandId)) in
  remoteLotteryEvent_value storage handle command s1 = Ok tt s1.
Proof.
  intros Hid Hprim. cbv zeta.
  destruct (field "id" command) as [cid|] eqn:Hfield; [|done].
  cbn [from_option] in Hprim.
  assert (Hagain : ∀ w', remoteLotteryEvent_value storage handle command (w', cid)
                         = Ok tt (w', cid)).
  { intros w'. unfold remoteLotteryEvent_value. cbn [fst snd].
    destruct (truthy command); [|done]. cbn [negb].
    rewrite Hfield, Hid. cbn [from_option id andb].
    by rewrite strict_eq_refl. }
  assert (Hfirst :
    (∃ w', final (remoteLotteryEvent_value storage handle command (w, lastCommandId))
           = (w', cid))
    ∨ remoteLotteryEvent_value storage handle command (w, lastCommandId)
      = Ok tt (w, lastCommandId)).
  { unfold remoteLotteryEvent_value. cbn [fst snd].
    destruct (truthy command) eqn:Hcmd; cbn [negb]; [|by right].
    rewrite Hfield, Hid. cbn [from_option andb].
    destruct (strict_eq _ lastCommandId) eqn:Hseen; [by right|]. left.
    destruct (from_option _ false (field "source" command)); [by eexists|].
    destruct (try_catch _ _ w) as [[] w'|e w']; by eexists. }
  destruct Hfirst as [[w' ->]|Hsame]; [by apply Hagain|].
  rewrite Hsame. exact Hsame.
Qed.

End BridgeCommands.

Lemma admin_sync_reaches_mobile_witness :
  let wa := client true {["prizes" := JArr [JStr "bicycle"]]} ∅ [] in
  let wm := client true ∅ (cloud (final (syncAdminToFirebase wa))) [] in
  localStorage (final (syncMobileFromFirebase wm)) !! "prizes"
  = Some (JArr [JStr "bicycle"])
  ∧ localStorage (final (syncMobileFromFirebase wm)) !! "lotteryState"
    = localStorage wm !! "lotteryState"
  ∧ (∀ s, localStorage wa !! "lotteryState" = Some s →
          cloud wm !! "lotteryState" = Some s).
Proof.
  cbv zeta.
  apply (admin_sync_reaches_mobile
           (client true {["prizes" := JArr [JStr "bicycle"]]} ∅ [])
           (client true ∅
              (cloud (final (syncAdminToFirebase
                               (client true {["prizes" := JArr [JStr "bicycle"]]} ∅ []))))
              [])
           "prizes" (JArr [JStr "bicycle"])).
  - by left.
  - reflexivity.
  - constructor.
  - reflexivity.
  - constructor.
  - reflexivity.
  - reflexivity.
  - reflexivity.
Defined.

Lemma remote_command_runs_once_witness :
  let command :=
    JObj [("id", JStr "cmd_1000_k3j9x0"); ("source", JStr "mobile");
          ("event", JObj [("type", JStr "START_LOTTERY")])] in
  let s1 :=
    final (remoteLotteryEvent_value (λ _ _ _ a, a) None command
             (client true ∅ ∅ [], JNull)) in
  remoteLotteryEvent_value (λ _ _ _ a, a) None command s1 = Ok tt s1.
Proof.
  apply (remote_command_runs_once (λ _ _ _ a, a) None
           (JObj [("id", JStr "cmd_1000_k3j9x0"); ("source", JStr "mobile");
                  ("event", JObj [("type", JStr "START_LOTTERY")])])
           (client true ∅ ∅ []) JNull); reflexivity.
Defined.
